(** * Conference.tsx: the signaling and chat core of the conference page

    A shallow embedding of [client/src/pages/Conference.tsx].  The component
    keeps four React state cells ([socket], [chatMessages], [chatContent],
    [peerConnection]) and talks to three browser objects: one [WebSocket],
    one [RTCPeerConnection] and the [alert] dialog.  Every handler of the
    component is a computation over a [World] that holds the state cells and
    the observable history of the browser objects; a handler reads the state
    cells through the values its render captured ([Render]), and writes them
    through the setters, exactly as a React closure does.

    An [async] handler is run to completion as one step; two handlers
    interleaving at an [await] are outside this model.  The browser is not
    part of the source: the peer connection is known by the calls made on
    it, and what those calls answer is left to a [Browser] parameter. *)

From Stdlib Require Import String List Bool Arith Lia.
Import ListNotations.
Open Scope string_scope.

(** ** Data *)

(** A value produced by [JSON.parse] (the [data] field is typed [unknown]). *)
#[local] Unset Elimination Schemes.
Inductive JSON : Type :=
| JNull
| JBool (b : bool)
| JNumber (literal : string)
| JString (s : string)
| JArray (items : list JSON)
| JObject (fields : list (string * JSON)).
#[local] Set Elimination Schemes.

(** The frame type as the source declares it ([from: string | undefined]).
    A frame whose [from] is present but not a string has no image here. *)
Module WSMessage.
Record t : Type := mk { type : string; from : option string; data : JSON }.
End WSMessage.

Module ChatMessage.
Record t : Type := mk { from : string; content : string }.
End ChatMessage.

(** A JS string is truthy unless it is empty. *)
Definition truthy (s : string) : bool := negb (String.eqb s "").

(** The handle of the WebSocket built by [new WebSocket(url)]. *)
Record WebSocket : Type := { url : string }.

(** The handle of the connection built by [new RTCPeerConnection(...)]. *)
Record RTCPeerConnection : Type := { iceServers : list string }.

Inductive ReadyState : Type := CONNECTING | OPEN | CLOSING | CLOSED.

Definition Track := string.
Definition MediaStream := list Track.

(** The methods the component invokes on its peer connection. *)
Inductive PCCall : Type :=
| AddTrack (track : Track)
| SetRemoteDescription (description : JSON)
| CreateAnswer
| SetLocalDescription (description : JSON)
| AddIceCandidate (candidate : JSON).

(** What the browser answers to those calls; each answer may depend on the
    calls made on the connection so far.  [false] and [None] stand for a
    rejected promise. *)
Record Browser : Type := {
  setRemoteDescription_resolves : list PCCall -> JSON -> bool;
  createAnswer_resolves : list PCCall -> option JSON;
  setLocalDescription_resolves : list PCCall -> JSON -> bool;
  addIceCandidate_resolves : list PCCall -> JSON -> bool
}.

(** ** The world a handler runs in *)

Record World : Type := {
  (* React state cells *)
  socket : option WebSocket;
  chatMessages : list ChatMessage.t;
  chatContent : string;
  peerConnection : option RTCPeerConnection;
  (* the WebSocket object *)
  readyState : ReadyState;
  sent : list JSON;              (* frames accepted by send, oldest first *)
  (* the RTCPeerConnection object *)
  calls : list PCCall;           (* methods invoked, oldest first *)
  (* the page *)
  localVideo : option MediaStream;
  remoteVideo : option MediaStream;
  alerts : list JSON;            (* arguments of alert, oldest first *)
  location : option string       (* target of navigate, if it was called *)
}.

(** The values of the state cells a render's closures capture. *)
Record Render : Type := {
  r_socket : option WebSocket;
  r_peerConnection : option RTCPeerConnection;
  r_chatContent : string
}.

Definition render (w : World) : Render :=
  {| r_socket := socket w;
     r_peerConnection := peerConnection w;
     r_chatContent := chatContent w |}.

Definition set_socket (v : option WebSocket) (w : World) : World :=
  {| socket := v; chatMessages := chatMessages w; chatContent := chatContent w;
     peerConnection := peerConnection w; readyState := readyState w;
     sent := sent w; calls := calls w; localVideo := localVideo w;
     remoteVideo := remoteVideo w; alerts := alerts w; location := location w |}.

Definition set_chatMessages (v : list ChatMessage.t) (w : World) : World :=
  {| socket := socket w; chatMessages := v; chatContent := chatContent w;
     peerConnection := peerConnection w; readyState := readyState w;
     sent := sent w; calls := calls w; localVideo := localVideo w;
     remoteVideo := remoteVideo w; alerts := alerts w; location := location w |}.

Definition set_chatContent (v : string) (w : World) : World :=
  {| socket := socket w; chatMessages := chatMessages w; chatContent := v;
     peerConnection := peerConnection w; readyState := readyState w;
     sent := sent w; calls := calls w; localVideo := localVideo w;
     remoteVideo := remoteVideo w; alerts := alerts w; location := location w |}.

Definition set_peerConnection (v : option RTCPeerConnection) (w : World) : World :=
  {| socket := socket w; chatMessages := chatMessages w; chatContent := chatContent w;
     peerConnection := v; readyState := readyState w;
     sent := sent w; calls := calls w; localVideo := localVideo w;
     remoteVideo := remoteVideo w; alerts := alerts w; location := location w |}.

Definition set_readyState (v : ReadyState) (w : World) : World :=
  {| socket := socket w; chatMessages := chatMessages w; chatContent := chatContent w;
     peerConnection := peerConnection w; readyState := v;
     sent := sent w; calls := calls w; localVideo := localVideo w;
     remoteVideo := remoteVideo w; alerts := alerts w; location := location w |}.

Definition set_sent (v : list JSON) (w : World) : World :=
  {| socket := socket w; chatMessages := chatMessages w; chatContent := chatContent w;
     peerConnection := peerConnection w; readyState := readyState w;
     sent := v; calls := calls w; localVideo := localVideo w;
     remoteVideo := remoteVideo w; alerts := alerts w; location := location w |}.

Definition set_calls (v : list PCCall) (w : World) : World :=
  {| socket := socket w; chatMessages := chatMessages w; chatContent := chatContent w;
     peerConnection := peerConnection w; readyState := readyState w;
     sent := sent w; calls := v; localVideo := localVideo w;
     remoteVideo := remoteVideo w; alerts := alerts w; location := location w |}.

Definition set_localVideo (v : option MediaStream) (w : World) : World :=
  {| socket := socket w; chatMessages := chatMessages w; chatContent := chatContent w;
     peerConnection := peerConnection w; readyState := readyState w;
     sent := sent w; calls := calls w; localVideo := v;
     remoteVideo := remoteVideo w; alerts := alerts w; location := location w |}.

Definition set_remoteVideo (v : option MediaStream) (w : World) : World :=
  {| socket := socket w; chatMessages := chatMessages w; chatContent := chatContent w;
     peerConnection := peerConnection w; readyState := readyState w;
     sent := sent w; calls := calls w; localVideo := localVideo w;
     remoteVideo := v; alerts := alerts w; location := location w |}.

Definition set_alerts (v : list JSON) (w : World) : World :=
  {| socket := socket w; chatMessages := chatMessages w; chatContent := chatContent w;
     peerConnection := peerConnection w; readyState := readyState w;
     sent := sent w; calls := calls w; localVideo := localVideo w;
     remoteVideo := remoteVideo w; alerts := v; location := location w |}.

Definition set_location (v : option string) (w : World) : World :=
  {| socket := socket w; chatMessages := chatMessages w; chatContent := chatContent w;
     peerConnection := peerConnection w; readyState := readyState w;
     sent := sent w; calls := calls w; localVideo := localVideo w;
     remoteVideo := remoteVideo w; alerts := alerts w; location := v |}.

(** ** Handlers as computations

    A handler either returns or throws; what it did to the world before it
    threw stays done. *)

Inductive Outcome (A : Type) : Type :=
| Returned (a : A)
| Thrown (e : string).
Arguments Returned {A} a.
Arguments Thrown {A} e.

Definition Eff (A : Type) : Type := World -> Outcome A * World.

Definition ret {A} (a : A) : Eff A := fun w => (Returned a, w).

Definition throw {A} (e : string) : Eff A := fun w => (Thrown e, w).

Definition bind {A B} (c : Eff A) (k : A -> Eff B) : Eff B :=
  fun w =>
    match c w with
    | (Returned a, w') => k a w'
    | (Thrown e, w') => (Thrown e, w')
    end.

Declare Scope eff_scope.
Delimit Scope eff_scope with eff.
Bind Scope eff_scope with Eff.
Notation "x <- c ;; k" := (bind c (fun x => k))
  (at level 61, c at next level, right associativity) : eff_scope.
Notation "c ;; k" := (bind c (fun _ => k))
  (at level 61, right associativity) : eff_scope.
Open Scope eff_scope.

(** The world a computation leaves behind, and how it ended. *)
Definition exec {A} (c : Eff A) (w : World) : World := snd (c w).
Definition outcome {A} (c : Eff A) (w : World) : Outcome A := fst (c w).


(** ** Browser primitives *)

(** [alert(v)] *)
Definition alert (v : JSON) : Eff unit :=
  fun w => (Returned tt, set_alerts (alerts w ++ [v]) w).

(** [navigate(path)] *)
Definition navigate (path : string) : Eff unit :=
  fun w => (Returned tt, set_location (Some path) w).

(** [socket.send(JSON.stringify(frame))].  The WebSocket standard makes
    [send] throw [InvalidStateError] while the socket is still connecting,
    hand the frame to the network when it is open, and discard the frame
    without an exception once the socket is closing or closed. *)
Definition send (socket : WebSocket) (frame : JSON) : Eff unit :=
  fun w =>
    match readyState w with
    | CONNECTING => (Thrown "InvalidStateError", w)
    | OPEN => (Returned tt, set_sent (sent w ++ [frame]) w)
    | CLOSING | CLOSED => (Returned tt, w)
    end.

(** [socket.close()] *)
Definition close (socket : WebSocket) : Eff unit :=
  fun w =>
    match readyState w with
    | CLOSED => (Returned tt, w)
    | _ => (Returned tt, set_readyState CLOSING w)
    end.

(** The frame [{ type: t, data: d }] handed to [JSON.stringify]. *)
Definition envelope (t : string) (d : JSON) : JSON :=
  JObject [("type", JString t); ("data", d)].

(** React setters.  [setChatMessages] is always called with an updater. *)
Definition setSocket (s : WebSocket) : Eff unit :=
  fun w => (Returned tt, set_socket (Some s) w).

Definition setChatMessages (f : list ChatMessage.t -> list ChatMessage.t) : Eff unit :=
  fun w => (Returned tt, set_chatMessages (f (chatMessages w)) w).

Definition setChatContent (s : string) : Eff unit :=
  fun w => (Returned tt, set_chatContent s w).

Definition setPeerConnection (p : RTCPeerConnection) : Eff unit :=
  fun w => (Returned tt, set_peerConnection (Some p) w).

(** [new WebSocket(url)]: a fresh socket, connecting, nothing sent. *)
Definition new_WebSocket (u : string) : Eff WebSocket :=
  fun w => (Returned {| url := u |}, set_sent [] (set_readyState CONNECTING w)).

(** [new RTCPeerConnection(config)]: a fresh connection, no call made yet. *)
Definition new_RTCPeerConnection (servers : list string) : Eff RTCPeerConnection :=
  fun w => (Returned {| iceServers := servers |}, set_calls [] w).

(** A method call on the peer connection: it is recorded, whether or not
    the browser accepts its argument, then the awaited promise resolves or
    rejects. *)
Definition invoke (c : PCCall) (resolves : bool) : Eff unit :=
  fun w =>
    (if resolves then Returned tt else Thrown "rejected",
     set_calls (calls w ++ [c]) w).

Definition addTrack (peer : RTCPeerConnection) (track : Track) : Eff unit :=
  invoke (AddTrack track) true.

Fixpoint forEach {A} (l : list A) (f : A -> Eff unit) : Eff unit :=
  match l with
  | [] => ret tt
  | x :: l' => f x ;; forEach l' f
  end.

Section Conference.

(** The route parameter, the [name] query parameter and the API address. *)
Variable roomID : string.
Variable searchParams_name : option string.
Variable VITE_API_URL : string.

Variable browser : Browser.

Definition setRemoteDescription (peer : RTCPeerConnection) (d : JSON) : Eff unit :=
  fun w => invoke (SetRemoteDescription d)
             (setRemoteDescription_resolves browser (calls w) d) w.

Definition createAnswer (peer : RTCPeerConnection) : Eff JSON :=
  fun w =>
    match createAnswer_resolves browser (calls w) with
    | Some answer => (Returned answer, set_calls (calls w ++ [CreateAnswer]) w)
    | None => (Thrown "rejected", set_calls (calls w ++ [CreateAnswer]) w)
    end.

Definition setLocalDescription (peer : RTCPeerConnection) (d : JSON) : Eff unit :=
  fun w => invoke (SetLocalDescription d)
             (setLocalDescription_resolves browser (calls w) d) w.

Definition addIceCandidate (peer : RTCPeerConnection) (c : JSON) : Eff unit :=
  fun w => invoke (AddIceCandidate c)
             (addIceCandidate_resolves browser (calls w) c) w.

(** ** The handlers of the component *)

Definition chatMessageHandler (wsMessage : WSMessage.t) : Eff unit :=
  match WSMessage.from wsMessage, WSMessage.data wsMessage with
  | Some from, JString data =>
      if truthy from then
        let newChat := ChatMessage.mk from data in
        setChatMessages (fun prevMessages => newChat :: prevMessages)
      else alert (JString "Invalid wsMessage format")
  | _, _ => alert (JString "Invalid wsMessage format")
  end.

Definition handleSDPOffer (r : Render) (offer : JSON) : Eff unit :=
  match r_peerConnection r with
  | None => ret tt
  | Some peerConnection =>
      setRemoteDescription peerConnection offer ;;
      answer <- createAnswer peerConnection ;;
      setLocalDescription peerConnection answer ;;
      match r_socket r with
      | Some socket => send socket (envelope "sdp-answer" answer)
      | None => ret tt
      end
  end.

Definition handleSDPAnswer (r : Render) (answer : JSON) : Eff unit :=
  match r_peerConnection r with
  | None => ret tt
  | Some peerConnection => setRemoteDescription peerConnection answer
  end.

Definition handleICECandidate (r : Render) (candidate : JSON) : Eff unit :=
  match r_peerConnection r with
  | None => ret tt
  | Some peerConnection => addIceCandidate peerConnection candidate
  end.

Definition wsMessageHandler (r : Render) (wsMessage : WSMessage.t) : Eff unit :=
  let type := WSMessage.type wsMessage in
  if type =? "chat" then chatMessageHandler wsMessage
  else if type =? "sdp-offer" then handleSDPOffer r (WSMessage.data wsMessage)
  else if type =? "sdp-answer" then handleSDPAnswer r (WSMessage.data wsMessage)
  else if type =? "ice" then handleICECandidate r (WSMessage.data wsMessage)
  else if type =? "error" then alert (WSMessage.data wsMessage)
  else alert (JString "Invalid websocket message received").

Definition sendChat (r : Render) : Eff unit :=
  match r_socket r with
  | None => alert (JString "Socket was not mounted")
  | Some socket =>
      match searchParams_name with
      | None => alert (JString "name parameter not passed")
      | Some username =>
          if truthy username then
            let newChat := ChatMessage.mk username (r_chatContent r) in
            send socket (envelope "chat" (JString (r_chatContent r))) ;;
            setChatMessages (fun prevMessages => newChat :: prevMessages) ;;
            setChatContent ""
          else alert (JString "name parameter not passed")
      end
  end.

(** [getLocalMediaStream]: [media] is what [getUserMedia] settles to, a
    stream or the error it rejects with.  The [video] element the ref points
    to is mounted by the time an effect runs. *)
Definition getLocalMediaStream (media : MediaStream + string)
  : Eff (option MediaStream) :=
  match media with
  | inl stream =>
      (fun w => (Returned tt, set_localVideo (Some stream) w)) ;;
      ret (Some stream)
  | inr err =>
      alert (JString ("Could not access media devices. " ++ err)) ;;
      ret None
  end.

(** The body of [useEffect(..., [socket])]. *)
Definition socketEffect (r : Render) (media : MediaStream + string) : Eff unit :=
  match r_socket r with
  | None => ret tt
  | Some socket =>
      myStream <- getLocalMediaStream media ;;
      match myStream with
      | None => ret tt
      | Some myStream =>
          peer <- new_RTCPeerConnection ["stun:stun.l.google.com:19302"] ;;
          forEach myStream (fun track => addTrack peer track) ;;
          setPeerConnection peer
      end
  end.

(** [peer.onicecandidate], which closes over the effect's [socket]. *)
Definition onicecandidate (socket : WebSocket) (candidate : option JSON) : Eff unit :=
  match candidate with
  | Some c => send socket (envelope "ice" c)
  | None => ret tt
  end.

(** [peer.ontrack]: the remote [video] element shows [event.streams[0]]. *)
Definition ontrack (streams : list MediaStream) : Eff unit :=
  fun w => (Returned tt, set_remoteVideo (hd_error streams) w).

(** The render in which the mount effect ran: every cell at its initial
    value.  [useEffect(..., [])] never runs again, so the handlers it
    installs on the socket keep these values. *)
Definition first_render : Render :=
  {| r_socket := None; r_peerConnection := None; r_chatContent := "" |}.

(** [newSocket.onmessage], on a frame that [JSON.parse] turned into a
    [WSMessage]. *)
Definition onmessage (wsMessage : WSMessage.t) : Eff unit :=
  wsMessageHandler first_render wsMessage.

(** [newSocket.onclose] *)
Definition onclose : Eff unit :=
  alert (JString "WebSocket connection closed") ;;
  navigate "/".

(** The string a template literal puts for [searchParams.get("name")]. *)
Definition name_text : string :=
  match searchParams_name with Some n => n | None => "null" end.

(** The body of [useEffect(..., [])]. *)
Definition mountEffect : Eff unit :=
  newSocket <- new_WebSocket
    (VITE_API_URL ++ "/rooms/" ++ roomID ++ "?name=" ++ name_text) ;;
  setSocket newSocket.

(** The cleanup the mount effect returns. *)
Definition cleanup (r : Render) : Eff unit :=
  match r_socket r with
  | Some socket => close socket
  | None => ret tt
  end.

(** ** The component as an event-driven system *)

Inductive Event : Type :=
| Mount                                     (* the mount effect runs *)
| SocketEffect (media : MediaStream + string)
                                            (* the [socket] effect runs *)
| Opened                                    (* the browser opened the socket *)
| Message (wsMessage : WSMessage.t)         (* a frame arrived *)
| Closed                                    (* the connection ended *)
| Change (value : string)                   (* the user typed in the input *)
| Click                                     (* the user pressed Send *)
| IceCandidate (candidate : option JSON)    (* the peer found a candidate *)
| RemoteTrack (streams : list MediaStream)  (* the peer received a track *)
| Unmount                                   (* the page is left *)
| Closing.                                  (* the server started to close *)

(** The handler an event runs.  Effects and [onClick] use the current
    render; the socket's handlers and the cleanup use [first_render].  The
    handlers of an object can only fire once the object exists.  [Opened]
    and [Closing] run no code of the page: they are the browser moving the
    socket to the open state, and to the closing state when the server
    starts the closing handshake. *)
Definition handler (ev : Event) : Eff unit :=
  fun w =>
    match ev with
    | Mount => mountEffect w
    | SocketEffect media => socketEffect (render w) media w
    | Opened =>
        match socket w, readyState w with
        | Some _, CONNECTING => (Returned tt, set_readyState OPEN w)
        | _, _ => (Returned tt, w)
        end
    | Message wsMessage =>
        match socket w with
        | Some _ => onmessage wsMessage w
        | None => (Returned tt, w)
        end
    | Closed =>
        match socket w with
        | Some _ => onclose (set_readyState CLOSED w)
        | None => (Returned tt, w)
        end
    | Change value => setChatContent value w
    | Click => sendChat (render w) w
    | IceCandidate candidate =>
        match peerConnection w, socket w with
        | Some _, Some socket => onicecandidate socket candidate w
        | _, _ => (Returned tt, w)
        end
    | RemoteTrack streams =>
        match peerConnection w with
        | Some _ => ontrack streams w
        | None => (Returned tt, w)
        end
    | Unmount => cleanup first_render w
    | Closing =>
        match socket w, readyState w with
        | Some _, OPEN => (Returned tt, set_readyState CLOSING w)
        | _, _ => (Returned tt, w)
        end
    end.

(** An exception that escapes a handler is reported on the console; the
    page goes on with the world as the handler left it. *)
Definition step (w : World) (ev : Event) : World := exec (handler ev) w.

Definition run (evs : list Event) (w : World) : World := fold_left step evs w.

End Conference.

(** The page before its first render is committed. *)
Definition initial : World :=
  {| socket := None; chatMessages := []; chatContent := "";
     peerConnection := None; readyState := CONNECTING; sent := [];
     calls := []; localVideo := None; remoteVideo := None; alerts := [];
     location := None |}.

(** ** Concrete browsers, renders and frames used in the examples *)

Definition answer0 : JSON :=
  JObject [("type", JString "answer"); ("sdp", JString "v=0 answer")].

Definition offer0 : JSON :=
  JObject [("type", JString "offer"); ("sdp", JString "v=0 offer")].

Definition candidate0 : JSON :=
  JObject [("candidate", JString "candidate:1 1 udp 1 10.0.0.1 5000 typ host")].

Definition candidate1 : JSON :=
  JObject [("candidate", JString "candidate:2 1 udp 1 10.0.0.2 5000 typ host")].

(** A browser in which every call resolves. *)
Definition accepting : Browser :=
  {| setRemoteDescription_resolves := fun _ _ => true;
     createAnswer_resolves := fun _ => Some answer0;
     setLocalDescription_resolves := fun _ _ => true;
     addIceCandidate_resolves := fun _ _ => true |}.

Fixpoint has_remote_call (cs : list PCCall) : bool :=
  match cs with
  | [] => false
  | SetRemoteDescription _ :: _ => true
  | _ :: cs' => has_remote_call cs'
  end.

(** A browser that, as WebRTC prescribes, rejects a candidate added while
    the connection has no remote description. *)
Definition standard : Browser :=
  {| setRemoteDescription_resolves := fun _ _ => true;
     createAnswer_resolves :=
       fun cs => if has_remote_call cs then Some answer0 else None;
     setLocalDescription_resolves := fun _ _ => true;
     addIceCandidate_resolves := fun cs _ => has_remote_call cs |}.

Definition camera : MediaStream := ["video0"; "audio0"].

(** The page of room r1 opened as alice, socket open, media acquired. *)
Definition connected : World :=
  run "r1" (Some "alice") "ws://host" accepting
      [Mount; Opened; SocketEffect (inl camera)] initial.

(** The same page while the socket is still connecting. *)
Definition connecting : World :=
  run "r1" (Some "alice") "ws://host" accepting
      [Mount; SocketEffect (inl camera)] initial.


Definition ice (c : JSON) : WSMessage.t := WSMessage.mk "ice" None c.
Definition chat (from data : string) : WSMessage.t :=
  WSMessage.mk "chat" (Some from) (JString data).

(** ** Vocabulary of the properties *)

(** One message entering the chat log: a [chat] frame from the channel, or
    a text the local user types and sends. *)
Inductive Append : Type :=
| Received (from data : string)
| Typed (content : string).

Definition message_of (username : string) (a : Append) : ChatMessage.t :=
  match a with
  | Received from data => ChatMessage.mk from data
  | Typed content => ChatMessage.mk username content
  end.

Definition events_of (a : Append) : list Event :=
  match a with
  | Received from data => [Message (chat from data)]
  | Typed content => [Change content; Click]
  end.

Definition well_formed (a : Append) : bool :=
  match a with
  | Received from _ => truthy from
  | Typed _ => true
  end.

(** The log [l'] is [l] itself or [l] with one message put in front. *)
Definition grows (l l' : list ChatMessage.t) : Prop :=
  l' = l \/ exists m, l' = m :: l.

(** The type tags the router recognises. *)
Definition recognized : list string :=
  ["chat"; "sdp-offer"; "sdp-answer"; "ice"; "error"].

(** The candidates passed to [addIceCandidate], in call order. *)
Fixpoint candidates_added (cs : list PCCall) : list JSON :=
  match cs with
  | [] => []
  | AddIceCandidate c :: cs' => c :: candidates_added cs'
  | _ :: cs' => candidates_added cs'
  end.

(** The calls made before the first [setRemoteDescription]. *)
Fixpoint before_remote (cs : list PCCall) : list PCCall :=
  match cs with
  | [] => []
  | SetRemoteDescription _ :: _ => []
  | c :: cs' => c :: before_remote cs'
  end.

(** The calls made after the first [setRemoteDescription]. *)
Fixpoint after_remote (cs : list PCCall) : list PCCall :=
  match cs with
  | [] => []
  | SetRemoteDescription _ :: cs' => cs'
  | _ :: cs' => after_remote cs'
  end.

(** The peer connection the [socket] effect builds. *)
Definition peer0 : RTCPeerConnection :=
  {| iceServers := ["stun:stun.l.google.com:19302"] |}.

(** [w'] has the state cells [socket] and [peerConnection] and the local
    video of [w]. *)
Definition same_session (w w' : World) : Prop :=
  socket w' = socket w /\
  peerConnection w' = peerConnection w /\
  localVideo w' = localVideo w.


(** The descriptions passed to [setLocalDescription], in call order. *)
Fixpoint local_descriptions (cs : list PCCall) : list JSON :=
  match cs with
  | [] => []
  | SetLocalDescription d :: cs' => d :: local_descriptions cs'
  | _ :: cs' => local_descriptions cs'
  end.

(** The three calls of the offer handler, in the order it makes them. *)
Definition answering (offer answer : JSON) : list PCCall :=
  [SetRemoteDescription offer; CreateAnswer; SetLocalDescription answer].

(** The router run on a sequence of frames, by the handlers of render [r]. *)
Definition handle_all (browser : Browser) (r : Render)
  (ms : list WSMessage.t) (w : World) : World :=
  fold_left (fun w m => exec (wsMessageHandler browser r m) w) ms w.

Definition sdp_offer (d : JSON) : WSMessage.t := WSMessage.mk "sdp-offer" None d.

(** The type tags the specification lists for the wire protocol. *)
Definition specified_tags : list string :=
  ["chat"; "offer"; "answer"; "candidate"; "error"].

(** *** The writes of the page

    Everything one event can do to the world, case by case: [change w ev w']
    lists the worlds [w'] the handler of [ev] can leave behind when it runs
    in [w]. *)
Inductive change (name : option string) (w : World) : Event -> World -> Prop :=
| kept ev :
    change name w ev w
| alerted ev a :
    change name w ev (set_alerts (alerts w ++ [a]) w)
| mounted u :
    change name w Mount
      (set_socket (Some {| url := u |})
         (set_sent [] (set_readyState CONNECTING w)))
| peer_created s stream :
    socket w = Some s ->
    change name w (SocketEffect (inl stream))
      (set_peerConnection (Some peer0)
         (set_calls (map AddTrack stream) (set_localVideo (Some stream) w)))
| opened :
    socket w <> None -> readyState w = CONNECTING ->
    change name w Opened (set_readyState OPEN w)
| appended m from data :
    socket w <> None -> truthy from = true ->
    change name w (Message m)
      (set_chatMessages (ChatMessage.mk from data :: chatMessages w) w)
| closed :
    socket w <> None ->
    change name w Closed
      (set_location (Some "/")
         (set_alerts (alerts w ++ [JString "WebSocket connection closed"])
            (set_readyState CLOSED w)))
| typed value :
    change name w (Change value) (set_chatContent value w)
| chat_sent username :
    name = Some username -> truthy username = true ->
    socket w <> None -> readyState w = OPEN ->
    change name w Click
      (set_chatContent ""
         (set_chatMessages
            (ChatMessage.mk username (chatContent w) :: chatMessages w)
            (set_sent (sent w ++ [envelope "chat" (JString (chatContent w))])
               w)))
| chat_discarded username :
    name = Some username -> truthy username = true ->
    socket w <> None -> readyState w = CLOSING \/ readyState w = CLOSED ->
    change name w Click
      (set_chatContent ""
         (set_chatMessages
            (ChatMessage.mk username (chatContent w) :: chatMessages w) w))
| candidate_sent c :
    peerConnection w <> None -> socket w <> None -> readyState w = OPEN ->
    change name w (IceCandidate (Some c))
      (set_sent (sent w ++ [envelope "ice" c]) w)
| track_shown streams :
    peerConnection w <> None ->
    change name w (RemoteTrack streams)
      (set_remoteVideo (hd_error streams) w)
| closing_started :
    socket w <> None -> readyState w = OPEN ->
    change name w Closing (set_readyState CLOSING w).

(** A call that adds a track. *)
Definition is_addTrack (c : PCCall) : Prop := exists t, c = AddTrack t.

(** A frame the page sends on its own socket: a chat text or a local
    candidate. *)
Definition outbound (f : JSON) : Prop :=
  (exists text, f = envelope "chat" (JString text)) \/
  (exists c, f = envelope "ice" c).


Definition error_frame (d : JSON) : WSMessage.t := WSMessage.mk "error" None d.

(** What a refused Send tells the user: the socket guard comes first. *)
Definition refusal (w : World) : JSON :=
  match socket w with
  | None => JString "Socket was not mounted"
  | Some _ => JString "name parameter not passed"
  end.

(** The frames [onicecandidate] sends for a run of candidate events; the
    [null] candidate that ends gathering sends none. *)
Definition ice_frames (cs : list (option JSON)) : list JSON :=
  flat_map (fun c => match c with
                     | Some c => [envelope "ice" c]
                     | None => []
                     end) cs.

(** A browser that rejects every description it is given. *)
Definition rejecting : Browser :=
  {| setRemoteDescription_resolves := fun _ _ => false;
     createAnswer_resolves := fun _ => None;
     setLocalDescription_resolves := fun _ _ => false;
     addIceCandidate_resolves := fun _ _ => false |}.

(** ** Basic facts *)

Lemma run_app roomID name api browser evs1 evs2 w :
  run roomID name api browser (evs1 ++ evs2) w =
  run roomID name api browser evs2 (run roomID name api browser evs1 w).
Proof. unfold run. apply fold_left_app. Qed.

Lemma run_cons roomID name api browser ev evs w :
  run roomID name api browser (ev :: evs) w =
  run roomID name api browser evs (step roomID name api browser w ev).
Proof. reflexivity. Qed.

Lemma grows_refl l : grows l l.
Proof. now left. Qed.

Lemma grows_cons m l : grows l (m :: l).
Proof. right. now exists m. Qed.

Create HintDb chat.
#[local] Hint Resolve grows_refl grows_cons : chat.

Ltac unfold_eff :=
  unfold exec, outcome, bind, ret, throw, alert, navigate, send, close,
    setSocket, setChatMessages, setChatContent, setPeerConnection,
    invoke in *.

(** The chat handler's two behaviours. *)
Lemma chatMessageHandler_valid from data w :
  truthy from = true ->
  chatMessageHandler (chat from data) w =
  (Returned tt, set_chatMessages (ChatMessage.mk from data :: chatMessages w) w).
Proof.
  intros Hf. unfold chatMessageHandler, chat. simpl. now rewrite Hf.
Qed.

Lemma chatMessageHandler_invalid m w :
  WSMessage.from m = None \/ (forall s, WSMessage.data m <> JString s) ->
  chatMessageHandler m w =
  (Returned tt, set_alerts (alerts w ++ [JString "Invalid wsMessage format"]) w).
Proof.
  intros H. unfold chatMessageHandler.
  destruct (WSMessage.from m) as [f|]; destruct (WSMessage.data m) eqn:Hd;
    try reflexivity.
  destruct H as [H|H]; [discriminate | now elim (H s)].
Qed.

Lemma chatMessageHandler_grows m w :
  grows (chatMessages w) (chatMessages (exec (chatMessageHandler m) w)).
Proof.
  unfold chatMessageHandler, exec.
  destruct (WSMessage.from m) as [f|]; destruct (WSMessage.data m);
    try destruct (truthy f); simpl; auto with chat.
Qed.

Lemma set_sent_calls_same w : set_sent (sent w) (set_calls (calls w) w) = w.
Proof. now destruct w. Qed.

(** The offer handler, step by step: each awaited call either lets the
    handler go on or ends it with the calls made so far. *)
Lemma handleSDPOffer_cases browser r p offer w :
  r_peerConnection r = Some p ->
  handleSDPOffer browser r offer w =
  let c1 := (calls w ++ [SetRemoteDescription offer])%list in
  let c2 := (calls w ++ [SetRemoteDescription offer; CreateAnswer])%list in
  if setRemoteDescription_resolves browser (calls w) offer then
    match createAnswer_resolves browser c1 with
    | Some answer =>
        let c3 := (calls w ++ [SetRemoteDescription offer; CreateAnswer;
                               SetLocalDescription answer])%list in
        if setLocalDescription_resolves browser c2 answer then
          match r_socket r with
          | Some _ =>
              match readyState w with
              | CONNECTING => (Thrown "InvalidStateError", set_calls c3 w)
              | OPEN =>
                  (Returned tt,
                   set_sent (sent w ++ [envelope "sdp-answer" answer])
                            (set_calls c3 w))
              | CLOSING | CLOSED => (Returned tt, set_calls c3 w)
              end
          | None => (Returned tt, set_calls c3 w)
          end
        else (Thrown "rejected", set_calls c3 w)
    | None => (Thrown "rejected", set_calls c2 w)
    end
  else (Thrown "rejected", set_calls c1 w).
Proof.
  intros Hp. unfold handleSDPOffer. rewrite Hp.
  unfold bind, setRemoteDescription, createAnswer, setLocalDescription,
    invoke, send, ret.
  cbv zeta.
  destruct (setRemoteDescription_resolves browser (calls w) offer);
    [|reflexivity].
  cbn [calls set_calls].
  destruct (createAnswer_resolves browser _) as [answer|];
    [| now rewrite <- app_assoc].
  cbn [calls set_calls]. rewrite <- !app_assoc. cbn [app].
  destruct (setLocalDescription_resolves browser _ answer); [|reflexivity].
  destruct (r_socket r); [|reflexivity].
  cbn [readyState set_calls]. destruct (readyState w); reflexivity.
Qed.

(** The offer handler writes nothing but the call log of the connection
    and the frames sent. *)
Lemma handleSDPOffer_writes browser r offer w :
  exists cs fs,
    exec (handleSDPOffer browser r offer) w = set_sent fs (set_calls cs w).
Proof.
  destruct (r_peerConnection r) as [p|] eqn:Hp.
  - unfold exec. rewrite (handleSDPOffer_cases browser r p offer w Hp).
    cbv zeta.
    destruct (setRemoteDescription_resolves browser (calls w) offer).
    + destruct (createAnswer_resolves browser _) as [answer|].
      * destruct (setLocalDescription_resolves browser _ answer).
        -- destruct (r_socket r); [destruct (readyState w)|];
             eexists; (eexists (sent w) + eexists); reflexivity.
        -- eexists; exists (sent w); reflexivity.
      * eexists; exists (sent w); reflexivity.
    + eexists; exists (sent w); reflexivity.
  - exists (calls w), (sent w). unfold handleSDPOffer, exec. rewrite Hp.
    simpl. now rewrite set_sent_calls_same.
Qed.

Lemma handleSDPOffer_chatMessages browser r offer w :
  chatMessages (exec (handleSDPOffer browser r offer) w) = chatMessages w.
Proof.
  destruct (handleSDPOffer_writes browser r offer w) as [cs [fs E]].
  now rewrite E.
Qed.

Lemma handleSDPAnswer_eq browser r answer w p :
  r_peerConnection r = Some p ->
  exec (handleSDPAnswer browser r answer) w =
  set_calls (calls w ++ [SetRemoteDescription answer]) w.
Proof.
  intros Hp. unfold handleSDPAnswer, exec, setRemoteDescription, invoke.
  now rewrite Hp.
Qed.

Lemma handleICECandidate_eq browser r c w p :
  r_peerConnection r = Some p ->
  exec (handleICECandidate browser r c) w =
  set_calls (calls w ++ [AddIceCandidate c]) w.
Proof.
  intros Hp. unfold handleICECandidate, exec, addIceCandidate, invoke.
  now rewrite Hp.
Qed.

Lemma wsMessageHandler_grows browser r m w :
  grows (chatMessages w) (chatMessages (exec (wsMessageHandler browser r m) w)).
Proof.
  unfold wsMessageHandler.
  destruct (WSMessage.type m =? "chat"); [apply chatMessageHandler_grows|].
  destruct (WSMessage.type m =? "sdp-offer").
  { rewrite handleSDPOffer_chatMessages. auto with chat. }
  destruct (WSMessage.type m =? "sdp-answer").
  { unfold handleSDPAnswer. destruct (r_peerConnection r);
      simpl; auto with chat. }
  destruct (WSMessage.type m =? "ice").
  { unfold handleICECandidate. destruct (r_peerConnection r);
      simpl; auto with chat. }
  destruct (WSMessage.type m =? "error"); simpl; auto with chat.
Qed.

Lemma sendChat_grows name r w :
  grows (chatMessages w) (chatMessages (exec (sendChat name r) w)).
Proof.
  unfold sendChat, exec, bind, send.
  destruct (r_socket r); [|simpl; auto with chat].
  destruct name as [u|]; [|simpl; auto with chat].
  destruct (truthy u); [|simpl; auto with chat].
  destruct (readyState w); simpl; auto with chat.
Qed.

Lemma set_calls_same w : set_calls (calls w) w = w.
Proof. now destruct w. Qed.

Lemma forEach_addTrack_eq peer tracks w :
  forEach tracks (fun track => addTrack peer track) w =
  (Returned tt, set_calls (calls w ++ map AddTrack tracks) w).
Proof.
  revert w. induction tracks as [|t ts IH]; intros w.
  - simpl. now rewrite app_nil_r, set_calls_same.
  - simpl. unfold bind, addTrack, invoke. rewrite IH. simpl.
    now rewrite <- app_assoc.
Qed.

Lemma socketEffect_acquired r s stream w :
  r_socket r = Some s ->
  socketEffect r (inl stream) w =
  (Returned tt,
   set_peerConnection (Some peer0)
     (set_calls (map AddTrack stream) (set_localVideo (Some stream) w))).
Proof.
  intros Hs. unfold socketEffect. rewrite Hs.
  unfold getLocalMediaStream, bind, ret, new_RTCPeerConnection,
    setPeerConnection.
  rewrite forEach_addTrack_eq. reflexivity.
Qed.

Lemma socketEffect_unavailable r s err w :
  r_socket r = Some s ->
  socketEffect r (inr err) w =
  (Returned tt,
   set_alerts
     (alerts w ++ [JString ("Could not access media devices. " ++ err)]) w).
Proof.
  intros Hs. unfold socketEffect. now rewrite Hs.
Qed.

Lemma socketEffect_unmounted r media w :
  r_socket r = None -> socketEffect r media w = (Returned tt, w).
Proof.
  intros Hs. unfold socketEffect. now rewrite Hs.
Qed.

Lemma step_grows roomID name api browser ev w :
  grows (chatMessages w)
        (chatMessages (step roomID name api browser w ev)).
Proof.
  unfold step. destruct ev.
  - simpl. auto with chat.
  - unfold exec, handler. destruct (r_socket (render w)) eqn:Hs.
    + destruct media as [stream|err].
      * rewrite (socketEffect_acquired _ _ _ _ Hs). simpl. auto with chat.
      * rewrite (socketEffect_unavailable _ _ _ _ Hs). simpl. auto with chat.
    + rewrite (socketEffect_unmounted _ _ _ Hs). simpl. auto with chat.
  - unfold exec, handler. destruct (socket w); [|simpl; auto with chat].
    destruct (readyState w); simpl; auto with chat.
  - unfold exec, handler. destruct (socket w); [|simpl; auto with chat].
    apply wsMessageHandler_grows.
  - unfold exec, handler. destruct (socket w); simpl; auto with chat.
  - simpl. auto with chat.
  - apply sendChat_grows.
  - unfold exec, handler, onicecandidate, send.
    destruct (peerConnection w); [|simpl; auto with chat].
    destruct (socket w); [|simpl; auto with chat].
    destruct candidate; [|simpl; auto with chat].
    destruct (readyState w); simpl; auto with chat.
  - unfold exec, handler. destruct (peerConnection w); simpl; auto with chat.
  - simpl. auto with chat.
  - unfold exec, handler. destruct (socket w); [|simpl; auto with chat].
    destruct (readyState w); simpl; auto with chat.
Qed.

(** ** The chat log *)

(** C10.  The chat log only grows at its front: the router on any frame,
    [sendChat], and every other handler of the page either put exactly one
    new message in front of the log or leave the log as it is, so at any
    later moment the earlier log is still there, unchanged, behind the
    messages added since. *)
Theorem chat_log_append_only :
  forall roomID name api browser,
    (forall r m w,
        grows (chatMessages w)
              (chatMessages (exec (wsMessageHandler browser r m) w))) /\
    (forall r w,
        grows (chatMessages w) (chatMessages (exec (sendChat name r) w))) /\
    (forall ev w,
        grows (chatMessages w)
              (chatMessages (step roomID name api browser w ev))) /\
    (forall evs w,
        exists added,
          chatMessages (run roomID name api browser evs w) =
          (added ++ chatMessages w)%list /\
          length added <= length evs).
Proof.
  intros roomID name api browser. repeat split.
  - intros. apply wsMessageHandler_grows.
  - intros. apply sendChat_grows.
  - intros. apply step_grows.
  - induction evs as [|ev evs IH]; intros w.
    + exists []. split; [reflexivity | simpl; lia].
    + rewrite run_cons.
      destruct (IH (step roomID name api browser w ev)) as [added [Ha Hl]].
      destruct (step_grows roomID name api browser ev w) as [Hg|[m Hg]];
        rewrite Hg in Ha.
      * exists added. split; [exact Ha | simpl; lia].
      * exists (added ++ [m])%list. split.
        -- now rewrite <- app_assoc.
        -- rewrite length_app. simpl. lia.
Qed.

(** [sendChat] once both guards are passed. *)
Lemma sendChat_eq username r s w :
  r_socket r = Some s ->
  truthy username = true ->
  sendChat (Some username) r w =
  let newChat := ChatMessage.mk username (r_chatContent r) in
  match readyState w with
  | CONNECTING => (Thrown "InvalidStateError", w)
  | OPEN =>
      (Returned tt,
       set_chatContent ""
         (set_chatMessages (newChat :: chatMessages w)
            (set_sent (sent w ++ [envelope "chat" (JString (r_chatContent r))])
               w)))
  | CLOSING | CLOSED =>
      (Returned tt,
       set_chatContent "" (set_chatMessages (newChat :: chatMessages w) w))
  end.
Proof.
  intros Hs Hu. unfold sendChat. rewrite Hs, Hu.
  unfold bind, send. destruct (readyState w); reflexivity.
Qed.

Lemma append_one roomID username api browser op w :
  socket w <> None -> readyState w <> CONNECTING ->
  truthy username = true -> well_formed op = true ->
  let w' := run roomID (Some username) api browser (events_of op) w in
  chatMessages w' = message_of username op :: chatMessages w /\
  socket w' = socket w /\ readyState w' = readyState w.
Proof.
  intros Hs Hr Hu Hop. destruct op as [from data|content]; simpl in *.
  - unfold step, exec, handler.
    destruct (socket w) eqn:Es; [|contradiction].
    unfold onmessage, wsMessageHandler. simpl.
    rewrite (chatMessageHandler_valid _ _ _ Hop). simpl. auto.
  - destruct (socket w) as [s|] eqn:Es; [|contradiction].
    assert (E := sendChat_eq username (render (set_chatContent content w)) s
                   (set_chatContent content w) Es Hu).
    unfold step, exec, handler. cbn [setChatContent snd].
    rewrite E. cbn [readyState set_chatContent].
    destruct (readyState w) eqn:Er; [contradiction | | | ]; simpl; auto.
Qed.

(** C4.  Messages appended one after the other, each either a well-formed
    [chat] frame from the channel or a text sent locally over a mounted
    socket that has left the connecting state, leave a log that shows them
    newest first: the appended messages in reverse order of insertion, in
    front of what the log held before.  Appending A, B, C to an empty log
    gives [C; B; A]. *)
Theorem chat_log_newest_first :
  forall roomID username api browser ops w,
    socket w <> None ->
    readyState w <> CONNECTING ->
    truthy username = true ->
    forallb well_formed ops = true ->
    chatMessages
      (run roomID (Some username) api browser (flat_map events_of ops) w) =
    (rev (map (message_of username) ops) ++ chatMessages w)%list.
Proof.
  intros roomID username api browser ops.
  induction ops as [|op ops IH]; intros w Hs Hr Hu Hwf; [reflexivity|].
  simpl in Hwf. apply andb_prop in Hwf. destruct Hwf as [Hop Hops].
  cbn [flat_map map rev]. rewrite run_app.
  destruct (append_one roomID username api browser op w Hs Hr Hu Hop)
    as [Hc [Hs' Hr']].
  rewrite IH; [| now rewrite Hs' | now rewrite Hr' | exact Hu | exact Hops].
  rewrite Hc. now rewrite <- app_assoc.
Qed.

Lemma chat_log_newest_first_witness :
  chatMessages
    (run "r1" (Some "alice") "ws://host" accepting
         (flat_map events_of [Received "bob" "A"; Typed "B"; Received "bob" "C"])
         connected) =
  [ChatMessage.mk "bob" "C"; ChatMessage.mk "alice" "B";
   ChatMessage.mk "bob" "A"].
Proof.
  apply (chat_log_newest_first "r1" "alice" "ws://host" accepting
           [Received "bob" "A"; Typed "B"; Received "bob" "C"] connected).
  - discriminate.
  - discriminate.
  - reflexivity.
  - reflexivity.
Defined.

(** ** The router *)

Lemma wsMessageHandler_unrecognized browser r m :
  ~ In (WSMessage.type m) recognized ->
  wsMessageHandler browser r m =
  alert (JString "Invalid websocket message received").
Proof.
  intros Hn. unfold wsMessageHandler.
  assert (He : forall t, In t recognized -> (WSMessage.type m =? t) = false).
  { intros t Ht. apply String.eqb_neq. intros E. apply Hn. now rewrite E. }
  rewrite !He; [reflexivity | simpl; auto 10 ..].
Qed.

Lemma wsMessageHandler_chat browser r m :
  WSMessage.type m = "chat" ->
  wsMessageHandler browser r m = chatMessageHandler m.
Proof. intros Ht. unfold wsMessageHandler. now rewrite Ht. Qed.

(** C3, as the code has it.  The router dispatches on the type tag alone,
    and the tags it knows are [chat], [sdp-offer], [sdp-answer], [ice] and
    [error]: [sdp-offer] goes to the offer handler, [sdp-answer] to the
    answer handler, [ice] to the candidate handler, [chat] to the chat
    handler, [error] is shown to the user, and every other tag is rejected
    with the alert "Invalid websocket message received". *)
Theorem router_dispatch :
  forall browser r m,
    (WSMessage.type m = "chat" ->
     wsMessageHandler browser r m = chatMessageHandler m) /\
    (WSMessage.type m = "sdp-offer" ->
     wsMessageHandler browser r m =
     handleSDPOffer browser r (WSMessage.data m)) /\
    (WSMessage.type m = "sdp-answer" ->
     wsMessageHandler browser r m =
     handleSDPAnswer browser r (WSMessage.data m)) /\
    (WSMessage.type m = "ice" ->
     wsMessageHandler browser r m =
     handleICECandidate browser r (WSMessage.data m)) /\
    (WSMessage.type m = "error" ->
     wsMessageHandler browser r m = alert (WSMessage.data m)) /\
    (~ In (WSMessage.type m) recognized ->
     wsMessageHandler browser r m =
     alert (JString "Invalid websocket message received")).
Proof.
  intros browser r m.
  repeat split; try (intros Ht; unfold wsMessageHandler; now rewrite Ht).
  apply wsMessageHandler_unrecognized.
Qed.

Lemma router_dispatch_witness :
  wsMessageHandler accepting (render connected)
    (WSMessage.mk "sdp-offer" None offer0) =
  handleSDPOffer accepting (render connected) offer0 /\
  wsMessageHandler accepting (render connected)
    (WSMessage.mk "ping" None JNull) =
  alert (JString "Invalid websocket message received").
Proof.
  split.
  - apply (router_dispatch accepting (render connected)
             (WSMessage.mk "sdp-offer" None offer0)).
    reflexivity.
  - apply (router_dispatch accepting (render connected)
             (WSMessage.mk "ping" None JNull)).
    simpl. intros [H|[H|[H|[H|[H|[]]]]]]; discriminate H.
Defined.

(** C3 as stated fails: a frame tagged [offer], [answer] or [candidate] is
    not handed to a negotiation handler.  On a page with a peer connection
    the router rejects each of them with the invalid-message alert and makes
    no call on the connection, while the offer handler itself, given the
    same payload, would have made three. *)
Lemma spec_tags_rejected :
  In "offer" specified_tags /\
  In "answer" specified_tags /\
  In "candidate" specified_tags /\
  exec (wsMessageHandler accepting (render connected) (WSMessage.mk "offer" None offer0))
       connected =
  set_alerts [JString "Invalid websocket message received"] connected /\
  exec (wsMessageHandler accepting (render connected) (WSMessage.mk "answer" None answer0))
       connected =
  set_alerts [JString "Invalid websocket message received"] connected /\
  exec (wsMessageHandler accepting (render connected) (WSMessage.mk "candidate" None candidate0))
       connected =
  set_alerts [JString "Invalid websocket message received"] connected /\
  calls (exec (handleSDPOffer accepting (render connected) offer0) connected) =
  (calls connected ++
   [SetRemoteDescription offer0; CreateAnswer; SetLocalDescription answer0])%list /\
  exec (wsMessageHandler accepting (render connected) (WSMessage.mk "offer" None offer0))
       connected <>
  exec (handleSDPOffer accepting (render connected) offer0) connected.
Proof.
  repeat split; try reflexivity; try (simpl; tauto).
  intros H. apply (f_equal alerts) in H. vm_compute in H. discriminate H.
Qed.

(** C6, as the code has it.  A frame whose type tag is none of the tags
    the router knows, [chat], [sdp-offer], [sdp-answer], [ice] and [error]
    (for instance [ping]), is reported to the user with one alert, and
    nothing else changes: the chat log, the peer connection, the calls made
    on it and the frames sent are exactly what they were.  The handler
    returns normally. *)
Theorem unrecognized_type_rejected :
  forall browser r m w,
    ~ In (WSMessage.type m) recognized ->
    wsMessageHandler browser r m w =
    (Returned tt,
     set_alerts (alerts w ++ [JString "Invalid websocket message received"]) w)
    /\ chatMessages (exec (wsMessageHandler browser r m) w) = chatMessages w
    /\ peerConnection (exec (wsMessageHandler browser r m) w) = peerConnection w
    /\ calls (exec (wsMessageHandler browser r m) w) = calls w
    /\ sent (exec (wsMessageHandler browser r m) w) = sent w.
Proof.
  intros browser r m w Hn.
  rewrite (wsMessageHandler_unrecognized browser r m Hn).
  repeat split.
Qed.

Lemma unrecognized_type_rejected_witness :
  wsMessageHandler accepting (render connected)
    (WSMessage.mk "ping" None JNull) connected =
  (Returned tt,
   set_alerts [JString "Invalid websocket message received"] connected).
Proof.
  apply (unrecognized_type_rejected accepting (render connected)
           (WSMessage.mk "ping" None JNull) connected).
  simpl. intros [H|[H|[H|[H|[H|[]]]]]]; discriminate H.
Defined.

(** C6 as stated fails.  The tags [ice] and [sdp-offer] are outside the
    set the specification lists, yet the router of a render that holds a
    peer connection reports nothing for them and hands them to the
    negotiation handlers: the candidate is added to the connection, and the
    offer is answered on the socket.  Arriving on the socket itself, the two
    frames raise no alert either. *)
Lemma negotiation_tags_not_rejected :
  ~ In "ice" specified_tags /\
  ~ In "sdp-offer" specified_tags /\
  wsMessageHandler accepting (render connected) (ice candidate0) connected =
  (Returned tt,
   set_calls (calls connected ++ [AddIceCandidate candidate0]) connected) /\
  alerts (exec (wsMessageHandler accepting (render connected) (ice candidate0))
               connected) = [] /\
  calls (exec (wsMessageHandler accepting (render connected) (ice candidate0))
              connected) <> calls connected /\
  alerts (exec (wsMessageHandler accepting (render connected)
                  (sdp_offer offer0)) connected) = [] /\
  sent (exec (wsMessageHandler accepting (render connected)
                (sdp_offer offer0)) connected) =
  [envelope "sdp-answer" answer0] /\
  alerts (run "r1" (Some "alice") "ws://host" accepting
              [Message (ice candidate0); Message (sdp_offer offer0)]
              connected) = [].
Proof.
  repeat split; try discriminate.
  - simpl. intros [H|[H|[H|[H|[H|[]]]]]]; discriminate H.
  - simpl. intros [H|[H|[H|[H|[H|[]]]]]]; discriminate H.
Qed.

(** C7.  A [chat] frame without [from], or whose [data] is not a string, is
    reported with the alert "Invalid wsMessage format" and dropped: the
    handler returns normally and the world differs from the one before only
    by that alert, so the chat log is untouched.  The page then goes on with
    the events that follow, and a well-formed chat frame that comes next is
    appended as usual. *)
Theorem malformed_chat_dropped :
  forall roomID name api browser r m w,
    WSMessage.type m = "chat" ->
    WSMessage.from m = None \/ (forall s, WSMessage.data m <> JString s) ->
    let reported :=
      set_alerts (alerts w ++ [JString "Invalid wsMessage format"]) w in
    wsMessageHandler browser r m w = (Returned tt, reported)
    /\ chatMessages (exec (wsMessageHandler browser r m) w) = chatMessages w
    /\ (forall evs,
          socket w <> None ->
          run roomID name api browser (Message m :: evs) w =
          run roomID name api browser evs reported)
    /\ (forall from data,
          truthy from = true ->
          chatMessages
            (exec (wsMessageHandler browser r (chat from data))
                  (exec (wsMessageHandler browser r m) w)) =
          ChatMessage.mk from data :: chatMessages w).
Proof.
  intros roomID name api browser r m w Ht Hbad reported.
  assert (E : forall r', wsMessageHandler browser r' m w = (Returned tt, reported)).
  { intros r'. rewrite (wsMessageHandler_chat browser r' m Ht).
    now apply chatMessageHandler_invalid. }
  repeat split.
  - apply E.
  - unfold exec. now rewrite E.
  - intros evs Hs. rewrite run_cons. f_equal.
    unfold step, exec, handler, onmessage.
    destruct (socket w); [|contradiction]. now rewrite E.
  - intros from data Hf. unfold exec. rewrite E.
    rewrite (wsMessageHandler_chat browser r (chat from data) eq_refl).
    now rewrite (chatMessageHandler_valid _ _ _ Hf).
Qed.

Lemma malformed_chat_dropped_witness :
  wsMessageHandler accepting (render connected)
    (WSMessage.mk "chat" None (JString "hello")) connected =
  (Returned tt, set_alerts [JString "Invalid wsMessage format"] connected) /\
  wsMessageHandler accepting (render connected)
    (WSMessage.mk "chat" (Some "bob") (JNumber "42")) connected =
  (Returned tt, set_alerts [JString "Invalid wsMessage format"] connected).
Proof.
  split.
  - apply (malformed_chat_dropped "r1" (Some "alice") "ws://host" accepting
             (render connected) (WSMessage.mk "chat" None (JString "hello"))
             connected eq_refl).
    left. reflexivity.
  - apply (malformed_chat_dropped "r1" (Some "alice") "ws://host" accepting
             (render connected)
             (WSMessage.mk "chat" (Some "bob") (JNumber "42"))
             connected eq_refl).
    right. intros s H. discriminate H.
Defined.

(** ** Which cells a handler can write *)

Lemma same_session_refl w : same_session w w.
Proof. now repeat split. Qed.

#[local] Hint Resolve same_session_refl : chat.

Ltac break_match :=
  repeat (simpl;
          match goal with
          | |- context [match ?x with _ => _ end] => destruct x eqn:?
          end).

Lemma wsMessageHandler_same_session browser r m w :
  same_session w (exec (wsMessageHandler browser r m) w).
Proof.
  unfold wsMessageHandler.
  destruct (WSMessage.type m =? "chat").
  { unfold chatMessageHandler, same_session. unfold_eff.
    break_match; simpl; auto. }
  destruct (WSMessage.type m =? "sdp-offer").
  { destruct (handleSDPOffer_writes browser r (WSMessage.data m) w)
      as [cs [fs E]].
    rewrite E. now repeat split. }
  unfold handleSDPAnswer, handleICECandidate, setRemoteDescription,
    addIceCandidate, same_session.
  unfold_eff. break_match; simpl; auto.
Qed.

Lemma sendChat_same_session name r w :
  same_session w (exec (sendChat name r) w).
Proof.
  unfold sendChat, same_session.
  destruct (r_socket r); [|simpl; auto].
  destruct name as [u|]; [|simpl; auto].
  destruct (truthy u); [|simpl; auto].
  unfold_eff. destruct (readyState w); simpl; auto.
Qed.

(** What one event does to the session cells. *)
Lemma step_session roomID name api browser w ev :
  let w' := step roomID name api browser w ev in
  match ev with
  | Mount =>
      socket w' <> None /\ peerConnection w' = peerConnection w /\
      localVideo w' = localVideo w
  | SocketEffect (inl stream) =>
      socket w' = socket w /\
      match socket w with
      | Some _ => peerConnection w' = Some peer0 /\ localVideo w' = Some stream
      | None => peerConnection w' = peerConnection w /\
                localVideo w' = localVideo w
      end
  | _ => same_session w w'
  end.
Proof.
  unfold step, same_session. destruct ev; unfold exec, handler.
  - simpl. repeat split. discriminate.
  - destruct media as [stream|err]; destruct (socket w) as [s|] eqn:Es.
    + rewrite (socketEffect_acquired (render w) s stream w Es). simpl.
      rewrite Es. auto.
    + rewrite (socketEffect_unmounted (render w) _ w Es). simpl.
      rewrite Es. auto.
    + rewrite (socketEffect_unavailable (render w) s err w Es). simpl. auto.
    + rewrite (socketEffect_unmounted (render w) _ w Es). simpl. auto.
  - destruct (socket w) eqn:Es; [|simpl; auto].
    destruct (readyState w); simpl; auto.
  - destruct (socket w) eqn:Es; [|simpl; auto].
    rewrite <- Es. apply wsMessageHandler_same_session.
  - destruct (socket w) eqn:Es; simpl; auto.
  - simpl. auto.
  - apply sendChat_same_session.
  - unfold onicecandidate. unfold_eff. break_match; simpl; auto.
  - destruct (peerConnection w) eqn:Ep; simpl; auto.
  - simpl. auto.
  - destruct (socket w) eqn:Es; [|simpl; auto].
    destruct (readyState w); simpl; auto.
Qed.

(** In every world the page can reach, a peer connection in the state cell
    comes with a mounted socket and an acquired local stream, and the
    history holds the mount and a successful run of the [socket] effect. *)
Lemma peer_invariant roomID name api browser evs :
  let w := run roomID name api browser evs initial in
  (socket w <> None -> In Mount evs) /\
  (peerConnection w <> None ->
   socket w <> None /\ localVideo w <> None /\
   exists stream, In (SocketEffect (inl stream)) evs).
Proof.
  induction evs as [|ev evs IH] using rev_ind.
  - simpl. split; intros H; now elim H.
  - cbv zeta in *. rewrite run_app. cbn [run fold_left].
    fold (run roomID name api browser evs initial) in *.
    set (w := run roomID name api browser evs initial) in *.
    destruct IH as [IHs IHp].
    pose proof (step_session roomID name api browser w ev) as Hstep.
    cbv zeta in Hstep.
    set (w' := step roomID name api browser w ev) in *.
    assert (Hin : forall e, In e evs -> In e (evs ++ [ev])%list).
    { intros e He. apply in_or_app. now left. }
    assert (Hlast : In ev (evs ++ [ev])%list).
    { apply in_or_app. right. now left. }
    destruct ev as [|media| | | | | | | | |];
      cbv beta iota in Hstep; unfold same_session in Hstep;
      try (destruct Hstep as [Hs [Hp Hl]]; rewrite ?Hs, ?Hp, ?Hl; split;
           [ intros H; auto
           | intros H; destruct (IHp H) as [H1 [H2 [st H3]]];
             repeat split; auto; exists st; auto ]; fail).
    destruct media as [stream|err].
    + destruct Hstep as [Hs Hrest]. rewrite Hs.
      split; [intros H; auto|].
      destruct (socket w) as [s|] eqn:Es.
      * destruct Hrest as [Hp Hl]. rewrite Hl. intros _.
        repeat split; try discriminate. exists stream. exact Hlast.
      * destruct Hrest as [Hp Hl]. rewrite Hp, Hl. intros H.
        destruct (IHp H) as [H1 _]. now elim H1.
    + destruct Hstep as [Hs [Hp Hl]]. rewrite Hs, Hp, Hl. split.
      * intros H; auto.
      * intros H; destruct (IHp H) as [H1 [H2 [st H3]]].
        repeat split; auto. exists st; auto.
Qed.


Lemma candidates_added_app cs1 cs2 :
  candidates_added (cs1 ++ cs2) =
  (candidates_added cs1 ++ candidates_added cs2)%list.
Proof.
  induction cs1 as [|c cs1 IH]; [reflexivity|].
  destruct c; simpl; now rewrite IH.
Qed.

Lemma local_descriptions_app cs1 cs2 :
  local_descriptions (cs1 ++ cs2) =
  (local_descriptions cs1 ++ local_descriptions cs2)%list.
Proof.
  induction cs1 as [|c cs1 IH]; [reflexivity|].
  destruct c; simpl; now rewrite IH.
Qed.

(** ** Negotiation *)




(** C9.  The answer handler of a render that holds a peer connection makes
    one call, [setRemoteDescription] with the received answer, and writes
    nothing else: no frame is sent, the chat log and the alerts are as
    before, no local description is set and no candidate is added.  The
    router does the very same on a frame tagged [sdp-answer]. *)
Theorem handleSDPAnswer_only_sets_remote :
  forall browser r p answer w,
    r_peerConnection r = Some p ->
    let w' := exec (handleSDPAnswer browser r answer) w in
    w' = set_calls (calls w ++ [SetRemoteDescription answer]) w /\
    sent w' = sent w /\
    chatMessages w' = chatMessages w /\
    alerts w' = alerts w /\
    local_descriptions (calls w') = local_descriptions (calls w) /\
    candidates_added (calls w') = candidates_added (calls w) /\
    (forall from,
        exec (wsMessageHandler browser r (WSMessage.mk "sdp-answer" from answer))
             w = w').
Proof.
  intros browser r p answer w Hp w'.
  assert (E : w' = set_calls (calls w ++ [SetRemoteDescription answer]) w).
  { apply (handleSDPAnswer_eq browser r answer w p Hp). }
  rewrite E. repeat split.
  - simpl. rewrite local_descriptions_app. simpl. apply app_nil_r.
  - simpl. rewrite candidates_added_app. simpl. apply app_nil_r.
  - intros from. rewrite <- E. reflexivity.
Qed.

Lemma handleSDPAnswer_only_sets_remote_witness :
  exec (handleSDPAnswer accepting (render connected) answer0) connected =
  set_calls
    [AddTrack "video0"; AddTrack "audio0"; SetRemoteDescription answer0]
    connected.
Proof.
  apply (handleSDPAnswer_only_sets_remote accepting (render connected) peer0
           answer0 connected).
  reflexivity.
Defined.

Lemma handleSDPOffer_calls browser r offer w :
  exists k answer,
    calls (exec (handleSDPOffer browser r offer) w) =
    (calls w ++ firstn k (answering offer answer))%list.
Proof.
  destruct (r_peerConnection r) as [p|] eqn:Hp.
  - unfold exec. rewrite (handleSDPOffer_cases browser r p offer w Hp).
    cbv zeta.
    destruct (setRemoteDescription_resolves browser (calls w) offer).
    + destruct (createAnswer_resolves browser _) as [answer|].
      * exists 3, answer.
        destruct (setLocalDescription_resolves browser _ answer);
          [destruct (r_socket r); [destruct (readyState w)|]|]; reflexivity.
      * exists 2, JNull. reflexivity.
    + exists 1, JNull. reflexivity.
  - exists 0, JNull. unfold handleSDPOffer, exec. rewrite Hp. simpl.
    now rewrite app_nil_r.
Qed.

Lemma candidates_added_answering k offer answer :
  candidates_added (firstn k (answering offer answer)) = [].
Proof.
  destruct k as [|[|[|k]]]; try reflexivity.
  unfold answering. cbn [firstn]. now rewrite firstn_nil.
Qed.

Lemma handle_all_cons browser r m ms w :
  handle_all browser r (m :: ms) w =
  handle_all browser r ms (exec (wsMessageHandler browser r m) w).
Proof. reflexivity. Qed.

Lemma handle_all_ice browser r p cs w :
  r_peerConnection r = Some p ->
  handle_all browser r (map ice cs) w =
  set_calls (calls w ++ map AddIceCandidate cs) w.
Proof.
  intros Hp. revert w. induction cs as [|c cs IH]; intros w.
  - simpl. now rewrite app_nil_r, set_calls_same.
  - cbn [map]. rewrite handle_all_cons.
    replace (exec (wsMessageHandler browser r (ice c)) w)
      with (set_calls (calls w ++ [AddIceCandidate c]) w).
    + rewrite IH. simpl. now rewrite <- app_assoc.
    + symmetry. apply (handleICECandidate_eq browser r c w p Hp).
Qed.

(** C1, as the code has it.  There is no candidate queue.  The handlers of
    a render that holds a peer connection pass every received candidate to
    [addIceCandidate] at once, in the order of receipt, whether or not a
    remote description has been set; and handling an offer or an answer
    later adds no candidate to the connection. *)
Theorem candidates_applied_on_receipt :
  forall browser r p cs w,
    r_peerConnection r = Some p ->
    handle_all browser r (map ice cs) w =
    set_calls (calls w ++ map AddIceCandidate cs) w /\
    candidates_added (calls (handle_all browser r (map ice cs) w)) =
    (candidates_added (calls w) ++ cs)%list /\
    (forall offer,
        candidates_added (calls (exec (handleSDPOffer browser r offer) w)) =
        candidates_added (calls w)) /\
    (forall answer,
        candidates_added (calls (exec (handleSDPAnswer browser r answer) w)) =
        candidates_added (calls w)).
Proof.
  intros browser r p cs w Hp. repeat split.
  - apply (handle_all_ice browser r p cs w Hp).
  - rewrite (handle_all_ice browser r p cs w Hp). simpl.
    rewrite candidates_added_app. f_equal.
    induction cs as [|c cs IH]; simpl; congruence.
  - intros offer.
    destruct (handleSDPOffer_calls browser r offer w) as [k [answer E]].
    rewrite E, candidates_added_app, candidates_added_answering.
    apply app_nil_r.
  - intros answer. rewrite (handleSDPAnswer_eq browser r answer w p Hp).
    simpl. rewrite candidates_added_app. apply app_nil_r.
Qed.

Lemma candidates_applied_on_receipt_witness :
  handle_all accepting (render connected)
    (map ice [candidate0; candidate1]) connected =
  set_calls
    [AddTrack "video0"; AddTrack "audio0";
     AddIceCandidate candidate0; AddIceCandidate candidate1]
    connected.
Proof.
  apply (candidates_applied_on_receipt accepting (render connected) peer0
           [candidate0; candidate1] connected).
  reflexivity.
Defined.

(** C1 as stated fails.  On a page whose peer connection has no remote
    description, two candidates arrive and then the offer.  Each candidate
    is passed to [addIceCandidate] the moment it arrives, so both calls
    precede [setRemoteDescription], and none follows it.  A browser that
    follows the standard rejects both early calls, and since nothing was
    kept, no candidate reaches the connection after the remote description
    is set either. *)
Lemma candidates_not_queued :
  has_remote_call (calls connected) = false /\
  calls (exec (wsMessageHandler accepting (render connected) (ice candidate0))
              connected) =
  (calls connected ++ [AddIceCandidate candidate0])%list /\
  calls (handle_all accepting (render connected)
           [ice candidate0; ice candidate1; sdp_offer offer0] connected) =
  [AddTrack "video0"; AddTrack "audio0";
   AddIceCandidate candidate0; AddIceCandidate candidate1;
   SetRemoteDescription offer0; CreateAnswer; SetLocalDescription answer0] /\
  candidates_added
    (before_remote
       (calls (handle_all accepting (render connected)
                 [ice candidate0; ice candidate1; sdp_offer offer0]
                 connected))) = [candidate0; candidate1] /\
  candidates_added
    (after_remote
       (calls (handle_all accepting (render connected)
                 [ice candidate0; ice candidate1; sdp_offer offer0]
                 connected))) = [] /\
  outcome (wsMessageHandler standard (render connected) (ice candidate0))
          connected = Thrown "rejected" /\
  candidates_added
    (after_remote
       (calls (handle_all standard (render connected)
                 [ice candidate0; ice candidate1; sdp_offer offer0]
                 connected))) = [].
Proof. repeat split. Qed.

(** ** Session establishment *)

(** C5, as the code has it.  The peer connection is created by the [socket]
    effect alone, and only when that effect's render holds the socket and
    [getUserMedia] has delivered a stream.  So on every page history a peer
    connection in the state cell implies that the mount effect has run and
    stored the socket, and that a run of the [socket] effect acquired the
    local stream now shown in the local video; whether the socket has opened
    plays no part.  When media acquisition fails the effect reports it and
    returns: no peer connection is created and no call is made. *)
Theorem peer_connection_needs_socket_and_media :
  forall roomID name api browser,
    (forall evs,
        peerConnection (run roomID name api browser evs initial) <> None ->
        socket (run roomID name api browser evs initial) <> None /\
        localVideo (run roomID name api browser evs initial) <> None /\
        In Mount evs /\
        exists stream, In (SocketEffect (inl stream)) evs) /\
    (forall r media w,
        r_socket r = None -> socketEffect r media w = (Returned tt, w)) /\
    (forall r err w,
        peerConnection (exec (socketEffect r (inr err)) w) = peerConnection w /\
        calls (exec (socketEffect r (inr err)) w) = calls w /\
        (r_socket r <> None ->
         alerts (exec (socketEffect r (inr err)) w) =
         (alerts w ++
          [JString ("Could not access media devices. " ++ err)])%list)) /\
    (forall evs err,
        peerConnection
          (run roomID name api browser (evs ++ [SocketEffect (inr err)])
               initial) =
        peerConnection (run roomID name api browser evs initial)).
Proof.
  intros roomID name api browser.
  split; [|split; [|split]].
  - intros evs Hp.
    destruct (peer_invariant roomID name api browser evs) as [Hs Hpeer].
    destruct (Hpeer Hp) as [H1 [H2 H3]]. auto.
  - intros r media w Hs. now apply socketEffect_unmounted.
  - intros r err w. unfold exec. destruct (r_socket r) as [s|] eqn:Es.
    + rewrite (socketEffect_unavailable r s err w Es). now repeat split.
    + rewrite (socketEffect_unmounted r (inr err) w Es).
      repeat split. intros H. now elim H.
  - intros evs err. rewrite run_app. cbn [run fold_left].
    pose proof (step_session roomID name api browser
                  (fold_left (step roomID name api browser) evs initial)
                  (SocketEffect (inr err))) as H.
    cbv zeta beta iota in H. apply H.
Qed.

Lemma peer_connection_needs_socket_and_media_witness :
  socket connecting <> None /\
  localVideo connecting <> None /\
  In Mount [Mount; SocketEffect (inl camera)] /\
  exists stream, In (SocketEffect (inl stream)) [Mount; SocketEffect (inl camera)].
Proof.
  apply (peer_connection_needs_socket_and_media "r1" (Some "alice")
           "ws://host" accepting).
  discriminate.
Defined.

(** C5 as stated fails.  The mount effect stores the socket as soon as it
    is constructed, the [socket] effect that follows acquires the camera
    and creates the peer connection, and all the while the socket is still
    connecting: no open event is in the history. *)
Lemma peer_created_before_open :
  connecting =
  run "r1" (Some "alice") "ws://host" accepting
      [Mount; SocketEffect (inl camera)] initial /\
  peerConnection connecting = Some peer0 /\
  readyState connecting = CONNECTING /\
  ~ In Opened [Mount; SocketEffect (inl camera)].
Proof.
  repeat split. simpl. intros [H|[H|[]]]; discriminate H.
Qed.

(** ** Sending chat *)

(** C8, as the code has it.  With the socket mounted and the name present,
    [sendChat] builds the message from the name and the typed text and
    first hands the [chat] envelope to the socket.  When that call returns,
    which it does on every socket that is past connecting, the handler puts
    the message in front of the log and clears the input at once, waiting
    for nothing from the server: on an open socket the envelope is the one
    frame sent, and on a closing or closed socket the frame is discarded and
    the message is appended all the same. *)
Theorem sendChat_sends_then_appends :
  forall username r s w,
    r_socket r = Some s ->
    truthy username = true ->
    let newChat := ChatMessage.mk username (r_chatContent r) in
    let frame := envelope "chat" (JString (r_chatContent r)) in
    let w' := exec (sendChat (Some username) r) w in
    (readyState w <> CONNECTING ->
     outcome (sendChat (Some username) r) w = Returned tt /\
     chatMessages w' = newChat :: chatMessages w /\
     chatContent w' = "") /\
    (readyState w = OPEN -> sent w' = (sent w ++ [frame])%list) /\
    (readyState w = CLOSING \/ readyState w = CLOSED ->
     sent w' = sent w /\ chatMessages w' = newChat :: chatMessages w).
Proof.
  intros username r s w Hs Hu newChat frame w'.
  pose proof (sendChat_eq username r s w Hs Hu) as E. cbv zeta in E.
  unfold w', exec, outcome. rewrite E. clear E.
  destruct (readyState w); (split; [|split]).
  all: try (intros H; discriminate H).
  all: try (intros [H|H]; discriminate H).
  all: try (intros H; now elim H).
  all: intros _; simpl; auto.
Qed.

Lemma sendChat_sends_then_appends_witness :
  sent (exec (sendChat (Some "alice") (render (set_chatContent "hi" connected)))
             (set_chatContent "hi" connected)) =
  [envelope "chat" (JString "hi")] /\
  chatMessages
    (exec (sendChat (Some "alice") (render (set_chatContent "hi" connected)))
          (set_chatContent "hi" connected)) =
  [ChatMessage.mk "alice" "hi"].
Proof.
  split.
  - apply (sendChat_sends_then_appends "alice"
             (render (set_chatContent "hi" connected))
             {| url := "ws://host/rooms/r1?name=alice" |}
             (set_chatContent "hi" connected) eq_refl eq_refl).
    reflexivity.
  - apply (proj1 (sendChat_sends_then_appends "alice"
                    (render (set_chatContent "hi" connected))
                    {| url := "ws://host/rooms/r1?name=alice" |}
                    (set_chatContent "hi" connected) eq_refl eq_refl)).
    simpl. discriminate.
Defined.

(** C8 as stated fails.  The user types "hi" and presses Send while the
    socket, already mounted, is still connecting: [send] throws, the message
    is neither transmitted nor put in the log, and the text stays in the
    input. *)
Lemma send_while_connecting_appends_nothing :
  socket (run "r1" (Some "alice") "ws://host" accepting
              [Mount; Change "hi"] initial) <> None /\
  outcome (handler "r1" (Some "alice") "ws://host" accepting Click)
          (run "r1" (Some "alice") "ws://host" accepting
               [Mount; Change "hi"] initial) = Thrown "InvalidStateError" /\
  chatMessages (run "r1" (Some "alice") "ws://host" accepting
                    [Mount; Change "hi"; Click] initial) = [] /\
  sent (run "r1" (Some "alice") "ws://host" accepting
            [Mount; Change "hi"; Click] initial) = [] /\
  chatContent (run "r1" (Some "alice") "ws://host" accepting
                   [Mount; Change "hi"; Click] initial) = "hi".
Proof.
  repeat split. discriminate.
Qed.

(** ** The handlers installed on the socket *)

(** The mount effect runs once, so [onmessage] keeps the router of the
    first render, in which [peerConnection] is [null]: a negotiation frame
    that arrives on the socket is dropped at the guard of its handler,
    whatever the state cells hold by then. *)
Remark onmessage_drops_negotiation :
  forall browser m w,
    In (WSMessage.type m) ["sdp-offer"; "sdp-answer"; "ice"] ->
    onmessage browser m w = (Returned tt, w).
Proof.
  intros browser m w Hin. unfold onmessage, wsMessageHandler.
  simpl in Hin. destruct Hin as [H|[H|[H|[]]]]; rewrite <- H; reflexivity.
Qed.

(** ** What an event can write *)

Lemma onmessage_change browser name m w :
  socket w <> None ->
  change name w (Message m) (exec (onmessage browser m) w).
Proof.
  intros Hs. unfold onmessage, wsMessageHandler, exec.
  destruct (WSMessage.type m =? "chat").
  { unfold chatMessageHandler.
    destruct (WSMessage.from m) as [f|]; [|apply alerted].
    destruct (WSMessage.data m); try apply alerted.
    destruct (truthy f) eqn:Hf; [|apply alerted].
    simpl. now apply appended. }
  destruct (WSMessage.type m =? "sdp-offer"); [apply kept|].
  destruct (WSMessage.type m =? "sdp-answer"); [apply kept|].
  destruct (WSMessage.type m =? "ice"); [apply kept|].
  destruct (WSMessage.type m =? "error"); apply alerted.
Qed.

Lemma sendChat_change name w :
  change name w Click (exec (sendChat name (render w)) w).
Proof.
  unfold sendChat. cbn [render r_socket r_chatContent].
  destruct (socket w) as [s|] eqn:Es; [|apply alerted].
  destruct name as [u|]; [|apply alerted].
  destruct (truthy u) eqn:Hu; [|apply alerted].
  unfold exec, bind, send.
  destruct (readyState w) eqn:Er; simpl.
  - apply kept.
  - apply (chat_sent (Some u) w u); auto. rewrite Es. discriminate.
  - apply (chat_discarded (Some u) w u); auto. rewrite Es. discriminate.
  - apply (chat_discarded (Some u) w u); auto. rewrite Es. discriminate.
Qed.

(** Every event leaves one of the worlds [change] lists. *)
Lemma step_change roomID name api browser w ev :
  change name w ev (step roomID name api browser w ev).
Proof.
  unfold step. destruct ev.
  - apply mounted.
  - unfold exec, handler. destruct (socket w) as [s|] eqn:Es.
    + destruct media as [stream|err].
      * rewrite (socketEffect_acquired (render w) s stream w Es).
        now apply (peer_created name w s).
      * rewrite (socketEffect_unavailable (render w) s err w Es).
        apply alerted.
    + rewrite (socketEffect_unmounted (render w) media w Es). apply kept.
  - unfold exec, handler. destruct (socket w) eqn:Es; [|apply kept].
    destruct (readyState w) eqn:Er; try apply kept.
    apply opened; [rewrite Es; discriminate | exact Er].
  - unfold exec at 1. unfold handler.
    destruct (socket w) eqn:Es; [|apply kept].
    apply onmessage_change. rewrite Es. discriminate.
  - unfold exec, handler. destruct (socket w) eqn:Es; [|apply kept].
    simpl. apply closed. rewrite Es. discriminate.
  - apply typed.
  - apply sendChat_change.
  - unfold exec, handler, onicecandidate, send.
    destruct (peerConnection w) eqn:Ep; [|apply kept].
    destruct (socket w) eqn:Es; [|apply kept].
    destruct candidate as [c|]; [|apply kept].
    destruct (readyState w) eqn:Er; try apply kept.
    apply candidate_sent; auto; [rewrite Ep | rewrite Es]; discriminate.
  - unfold exec, handler. destruct (peerConnection w) eqn:Ep; [|apply kept].
    apply track_shown. rewrite Ep. discriminate.
  - apply kept.
  - unfold exec, handler. destruct (socket w) eqn:Es; [|apply kept].
    destruct (readyState w) eqn:Er; try apply kept.
    apply closing_started; [rewrite Es; discriminate | exact Er].
Qed.

(** A property every write keeps holds after any sequence of events. *)
Lemma run_invariant roomID name api browser (P : World -> Prop) :
  (forall w ev w', P w -> change name w ev w' -> P w') ->
  forall evs w, P w -> P (run roomID name api browser evs w).
Proof.
  intros Hkeep evs. induction evs as [|ev evs IH]; intros w Hw; [exact Hw|].
  rewrite run_cons. apply IH.
  apply (Hkeep w ev); [exact Hw | apply step_change].
Qed.

(** ** Invariants of the page *)

(** X1.  Whatever frames arrive and whatever else happens, the only calls
    the page ever makes on its peer connection are the [addTrack] calls of
    the [socket] effect: the handlers the mount effect installed on the
    socket are those of the first render, so an offer, an answer or a
    candidate that arrives is dropped at the null guard and no
    [setRemoteDescription], [createAnswer], [setLocalDescription] or
    [addIceCandidate] call is made. *)
Theorem page_only_adds_tracks :
  forall roomID name api browser evs,
    Forall is_addTrack (calls (run roomID name api browser evs initial)).
Proof.
  intros roomID name api browser evs.
  apply (run_invariant roomID name api browser
           (fun w => Forall is_addTrack (calls w))).
  - intros w ev w' HP Hc. destruct Hc; simpl; auto.
    apply Forall_forall. intros c Hin. apply in_map_iff in Hin.
    destruct Hin as [t [Ht _]]. now exists t.
  - constructor.
Qed.

(** X2.  Every frame the page sends on its socket is a [chat] envelope
    whose data is a string or an [ice] envelope; in particular no
    [sdp-answer] is ever sent, and no frame carries a [from] field. *)
Theorem page_sends_chat_or_ice :
  forall roomID name api browser evs,
    Forall outbound (sent (run roomID name api browser evs initial)).
Proof.
  intros roomID name api browser evs.
  apply (run_invariant roomID name api browser
           (fun w => Forall outbound (sent w))).
  - intros w ev w' HP Hc. destruct Hc; simpl; auto.
    + apply Forall_app. split; [exact HP|]. constructor; [|constructor].
      left. now exists (chatContent w).
    + apply Forall_app. split; [exact HP|]. constructor; [|constructor].
      right. now exists c.
  - constructor.
Qed.

(** X3.  No message in the chat log has an empty sender: a received
    message enters the log only with a non-empty [from], and a local one
    only with a non-empty [name] parameter. *)
Theorem chat_log_senders_nonempty :
  forall roomID name api browser evs,
    Forall (fun m => ChatMessage.from m <> "")
           (chatMessages (run roomID name api browser evs initial)).
Proof.
  intros roomID name api browser evs.
  apply (run_invariant roomID name api browser
           (fun w => Forall (fun m => ChatMessage.from m <> "")
                            (chatMessages w))).
  - assert (Ht : forall s, truthy s = true -> s <> "").
    { intros s Hs E. subst s. discriminate Hs. }
    intros w ev w' HP Hc. destruct Hc; simpl; auto.
  - constructor.
Qed.

Lemma closing_is_the_servers name w ev w' :
  change name w ev w' -> ev <> Closing ->
  readyState w' = CLOSING -> readyState w = CLOSING.
Proof.
  intros Hc Hev H. destruct Hc; simpl in H; auto; try discriminate H.
  now elim Hev.
Qed.

(** X4.  The page never closes its own socket.  The cleanup of the mount
    effect tests the [socket] of the first render, which is [undefined], so
    leaving the page changes nothing and [close] is not called; on every
    history, a socket in the closing state is there because the server
    started the closing handshake. *)
Theorem page_never_closes_socket :
  forall roomID name api browser,
    (forall w, step roomID name api browser w Unmount = w) /\
    (forall evs,
        readyState (run roomID name api browser evs initial) = CLOSING ->
        In Closing evs).
Proof.
  intros roomID name api browser. split; [reflexivity|].
  intros evs. induction evs as [|ev evs IH] using rev_ind.
  - simpl. intros H. discriminate H.
  - rewrite run_app. cbn [run fold_left]. intros H.
    apply in_or_app.
    assert (Hd : ev = Closing \/ ev <> Closing).
    { destruct ev; (now left) || (right; discriminate). }
    destruct Hd as [->|Hne]; [right; now left|].
    left. apply IH.
    apply (closing_is_the_servers name _ ev _
             (step_change roomID name api browser _ ev) Hne H).
Qed.

Lemma page_never_closes_socket_witness :
  readyState (run "r1" (Some "alice") "ws://host" accepting
                  [Mount; Opened; Closing; Unmount] initial) = CLOSING /\
  In Closing [Mount; Opened; Closing; Unmount].
Proof.
  split; [reflexivity|].
  apply (page_never_closes_socket "r1" (Some "alice") "ws://host" accepting).
  reflexivity.
Defined.

Lemma socket_stays roomID name api browser evs w :
  socket w <> None -> socket (run roomID name api browser evs w) <> None.
Proof.
  apply (run_invariant roomID name api browser (fun w => socket w <> None)).
  intros w0 ev w' HP Hc. destruct Hc; simpl; auto; discriminate.
Qed.

Lemma peerConnection_stays roomID name api browser evs w :
  peerConnection w <> None ->
  peerConnection (run roomID name api browser evs w) <> None.
Proof.
  apply (run_invariant roomID name api browser
           (fun w => peerConnection w <> None)).
  intros w0 ev w' HP Hc. destruct Hc; simpl; auto; discriminate.
Qed.

(** X5.  The [socket] and [peerConnection] state cells are never cleared:
    once one of them holds an object it holds one after every further
    event, the close of the connection and the unmount included. *)
Theorem session_cells_never_cleared :
  forall roomID name api browser evs w,
    (socket w <> None ->
     socket (run roomID name api browser evs w) <> None) /\
    (peerConnection w <> None ->
     peerConnection (run roomID name api browser evs w) <> None).
Proof.
  intros roomID name api browser evs w. split.
  - apply socket_stays.
  - apply peerConnection_stays.
Qed.

Lemma session_cells_never_cleared_witness :
  socket (run "r1" (Some "alice") "ws://host" accepting
              [Closed; Unmount; Message (sdp_offer offer0)] connected)
  <> None /\
  peerConnection (run "r1" (Some "alice") "ws://host" accepting
                      [Closed; Unmount; Message (sdp_offer offer0)] connected)
  <> None.
Proof.
  split.
  - apply (proj1 (session_cells_never_cleared "r1" (Some "alice") "ws://host"
                    accepting [Closed; Unmount; Message (sdp_offer offer0)]
                    connected)).
    discriminate.
  - apply (proj2 (session_cells_never_cleared "r1" (Some "alice") "ws://host"
                    accepting [Closed; Unmount; Message (sdp_offer offer0)]
                    connected)).
    discriminate.
Defined.

(** X6.  Every chat frame the page has sent is in its own log: on every
    history, a [chat] envelope among the frames sent carries a text that
    the chat log holds as a message from the [name] parameter.  [sendChat]
    appends in the same run in which [send] accepted the frame, and nothing
    ever takes a message out of the log. *)
Theorem sent_chat_is_logged :
  forall roomID name api browser evs text,
    In (envelope "chat" (JString text))
       (sent (run roomID name api browser evs initial)) ->
    exists username,
      name = Some username /\
      In (ChatMessage.mk username text)
         (chatMessages (run roomID name api browser evs initial)).
Proof.
  intros roomID name api browser evs.
  apply (run_invariant roomID name api browser
           (fun w =>
              forall text,
                In (envelope "chat" (JString text)) (sent w) ->
                exists username,
                  name = Some username /\
                  In (ChatMessage.mk username text) (chatMessages w))).
  - intros w ev w' HP Hc. destruct Hc; simpl; auto.
    + intros text Hs. now elim Hs.
    + intros text Hs. destruct (HP text Hs) as [u [Hu Hin]].
      exists u. split; [exact Hu | now right].
    + intros text Hs. apply in_app_or in Hs. destruct Hs as [Hs|Hs].
      * destruct (HP text Hs) as [u [Hu Hin]].
        exists u. split; [exact Hu | now right].
      * destruct Hs as [Hs|[]]. injection Hs as Ht. subst text.
        exists username. split; [assumption | now left].
    + intros text Hs. destruct (HP text Hs) as [u [Hu Hin]].
      exists u. split; [exact Hu | now right].
    + intros text Hs. apply in_app_or in Hs. destruct Hs as [Hs|Hs].
      * now apply HP.
      * destruct Hs as [Hs|[]]. discriminate Hs.
  - simpl. intros text Hs. now elim Hs.
Qed.

Lemma sent_chat_is_logged_witness :
  exists username,
    Some "alice" = Some username /\
    In (ChatMessage.mk username "hi")
       (chatMessages
          (run "r1" (Some "alice") "ws://host" accepting
               [Mount; Opened; Change "hi"; Click; Message (chat "bob" "yo")]
               initial)).
Proof.
  apply (sent_chat_is_logged "r1" (Some "alice") "ws://host" accepting
           [Mount; Opened; Change "hi"; Click; Message (chat "bob" "yo")]
           "hi").
  simpl. left. reflexivity.
Defined.




Lemma navigation_step name w ev w' :
  change name w ev w' ->
  (location w' = location w /\
   forall a, In a (alerts w) -> In a (alerts w')) \/
  (ev = Closed /\ location w' = Some "/" /\
   In (JString "WebSocket connection closed") (alerts w')).
Proof.
  intros Hc. destruct Hc; simpl; auto.
  - left. split; [reflexivity|]. intros b Hb. apply in_or_app. now left.
  - right. repeat split. apply in_or_app. right. now left.
Qed.

(** X8.  The page leaves for the home route only when the connection
    ends: on every history, if [navigate] has been called, its target is
    "/", the close event is in the history, and the user has been told
    "WebSocket connection closed". *)
Theorem navigation_only_on_close :
  forall roomID name api browser evs,
    location (run roomID name api browser evs initial) <> None ->
    location (run roomID name api browser evs initial) = Some "/" /\
    In Closed evs /\
    In (JString "WebSocket connection closed")
       (alerts (run roomID name api browser evs initial)).
Proof.
  intros roomID name api browser evs.
  induction evs as [|ev evs IH] using rev_ind.
  - simpl. intros H. now elim H.
  - rewrite run_app. cbn [run fold_left].
    fold (run roomID name api browser evs initial) in *.
    set (w := run roomID name api browser evs initial) in *.
    destruct (navigation_step name w ev _
                (step_change roomID name api browser w ev))
      as [[Hl Ha]|[He [Hl Ha]]].
    + rewrite Hl. intros H. destruct (IH H) as [H1 [H2 H3]].
      repeat split; auto. apply in_or_app. now left.
    + intros _. repeat split; auto. apply in_or_app. right. left.
      now symmetry.
Qed.

Lemma navigation_only_on_close_witness :
  location (run "r1" (Some "alice") "ws://host" accepting
                [Mount; Opened; Closed] initial) = Some "/" /\
  In Closed [Mount; Opened; Closed] /\
  In (JString "WebSocket connection closed")
     (alerts (run "r1" (Some "alice") "ws://host" accepting
                  [Mount; Opened; Closed] initial)).
Proof.
  apply (navigation_only_on_close "r1" (Some "alice") "ws://host" accepting
           [Mount; Opened; Closed]).
  discriminate.
Defined.

(** ** Edge cases of the handlers *)

Lemma set_alerts_same w : set_alerts (alerts w) w = w.
Proof. now destruct w. Qed.

Lemma set_sent_same w : set_sent (sent w) w = w.
Proof. now destruct w. Qed.

Lemma step_refused roomID name api browser w :
  socket w = None \/ name = None \/ name = Some "" ->
  step roomID name api browser w Click =
  set_alerts (alerts w ++ [refusal w]) w.
Proof.
  intros H. unfold step, exec, handler, sendChat, refusal.
  cbn [render r_socket].
  destruct (socket w) as [s|] eqn:Es; [|reflexivity].
  destruct H as [H|[H|H]]; [discriminate H | | ]; rewrite H; reflexivity.
Qed.

(** X9.  A Send that cannot go through is refused with an alert and
    nothing else: when the socket is not mounted, or the [name] parameter
    is absent or empty, pressing Send any number of times leaves the chat
    log, the typed text and the frames sent as they were and only adds one
    alert per press; the missing socket is reported first. *)
Theorem refused_sends_only_alert :
  forall roomID name api browser n w,
    socket w = None \/ name = None \/ name = Some "" ->
    run roomID name api browser (repeat Click n) w =
    set_alerts (alerts w ++ repeat (refusal w) n) w.
Proof.
  intros roomID name api browser n.
  induction n as [|n IH]; intros w H.
  - simpl. now rewrite app_nil_r, set_alerts_same.
  - cbn [repeat]. rewrite run_cons, (step_refused _ _ _ _ _ H).
    rewrite IH; [|simpl; exact H].
    unfold refusal. simpl. now rewrite <- app_assoc.
Qed.

Lemma refused_sends_only_alert_witness :
  run "r1" (Some "") "ws://host" accepting (repeat Click 2) connected =
  set_alerts [JString "name parameter not passed";
              JString "name parameter not passed"] connected.
Proof.
  apply (refused_sends_only_alert "r1" (Some "") "ws://host" accepting 2
           connected).
  right. right. reflexivity.
Defined.

(** X10.  On a frame of the declared type, whose [from] is absent or a
    string, the chat handler does one of two things.  When [from] is a
    non-empty string and [data] is a string it puts the message in front of
    the log and does nothing else; an empty text is accepted.  When [from]
    is absent or the empty string, or [data] is not a string, it only
    raises the alert "Invalid wsMessage format". *)
Theorem chat_frame_accepted_iff :
  forall m w,
    (exists from data,
        WSMessage.from m = Some from /\ from <> "" /\
        WSMessage.data m = JString data /\
        chatMessageHandler m w =
        (Returned tt,
         set_chatMessages (ChatMessage.mk from data :: chatMessages w) w)) \/
    ((WSMessage.from m = None \/ WSMessage.from m = Some "" \/
      forall data, WSMessage.data m <> JString data) /\
     chatMessageHandler m w =
     (Returned tt,
      set_alerts (alerts w ++ [JString "Invalid wsMessage format"]) w)).
Proof.
  intros m w. unfold chatMessageHandler.
  destruct (WSMessage.from m) as [f|]; [|right; auto].
  destruct (WSMessage.data m) eqn:Hd;
    try (right; split; [right; right; intros d H; discriminate H
                       | reflexivity]).
  unfold truthy. destruct (f =? "") eqn:Hf.
  - apply String.eqb_eq in Hf. subst f. right. auto.
  - apply String.eqb_neq in Hf. left. exists f, s. auto.
Qed.

Lemma error_frame_step roomID name api browser d w :
  socket w <> None ->
  step roomID name api browser w (Message (error_frame d)) =
  set_alerts (alerts w ++ [d]) w.
Proof.
  intros Hs. unfold step, exec, handler.
  destruct (socket w); [reflexivity | now elim Hs].
Qed.

(** X11.  Error frames from the server are shown to the user as they come,
    in arrival order, and change nothing else: after any run of [error]
    frames the world is the one before with their payloads appended to the
    alerts, so the chat log, the typed text and the session are intact. *)
Theorem error_frames_shown_in_order :
  forall roomID name api browser ds w,
    socket w <> None ->
    run roomID name api browser
        (map (fun d => Message (error_frame d)) ds) w =
    set_alerts (alerts w ++ ds) w.
Proof.
  intros roomID name api browser ds.
  induction ds as [|d ds IH]; intros w Hs.
  - simpl. now rewrite app_nil_r, set_alerts_same.
  - cbn [map]. rewrite run_cons, (error_frame_step _ _ _ _ d w Hs).
    rewrite IH; [|exact Hs]. simpl. now rewrite <- app_assoc.
Qed.

Lemma error_frames_shown_in_order_witness :
  run "r1" (Some "alice") "ws://host" accepting
      (map (fun d => Message (error_frame d))
           [JString "room is full"; JString "peer left"]) connected =
  set_alerts [JString "room is full"; JString "peer left"] connected.
Proof.
  apply (error_frames_shown_in_order "r1" (Some "alice") "ws://host"
           accepting [JString "room is full"; JString "peer left"] connected).
  discriminate.
Defined.

(** X12.  How the offer handler fails.  With a peer connection and a
    socket in its render, the handler ends at the first awaited call the
    browser rejects, throwing, with the calls made so far recorded and
    nothing sent.  When all three calls resolve but the socket is still
    connecting, [send] throws after the local description has been set;
    when the socket is closing or closed the handler returns normally.  In
    both cases the answer is applied locally and never delivered. *)
Theorem offer_failure_modes :
  forall browser r p s offer w,
    r_peerConnection r = Some p ->
    r_socket r = Some s ->
    let c1 := (calls w ++ [SetRemoteDescription offer])%list in
    let c2 := (calls w ++ [SetRemoteDescription offer; CreateAnswer])%list in
    (setRemoteDescription_resolves browser (calls w) offer = false ->
     handleSDPOffer browser r offer w = (Thrown "rejected", set_calls c1 w)) /\
    (setRemoteDescription_resolves browser (calls w) offer = true ->
     createAnswer_resolves browser c1 = None ->
     handleSDPOffer browser r offer w = (Thrown "rejected", set_calls c2 w)) /\
    (forall answer,
        setRemoteDescription_resolves browser (calls w) offer = true ->
        createAnswer_resolves browser c1 = Some answer ->
        let c3 := (calls w ++ answering offer answer)%list in
        (setLocalDescription_resolves browser c2 answer = false ->
         handleSDPOffer browser r offer w =
         (Thrown "rejected", set_calls c3 w)) /\
        (setLocalDescription_resolves browser c2 answer = true ->
         readyState w = CONNECTING ->
         handleSDPOffer browser r offer w =
         (Thrown "InvalidStateError", set_calls c3 w)) /\
        (setLocalDescription_resolves browser c2 answer = true ->
         readyState w = CLOSING \/ readyState w = CLOSED ->
         handleSDPOffer browser r offer w = (Returned tt, set_calls c3 w))).
Proof.
  intros browser r p s offer w Hp Hs c1 c2.
  pose proof (handleSDPOffer_cases browser r p offer w Hp) as E.
  cbv zeta in E. rewrite Hs in E. fold c1 c2 in E.
  split; [|split].
  - intros H1. now rewrite E, H1.
  - intros H1 H2. now rewrite E, H1, H2.
  - intros answer H1 H2 c3. rewrite E, H1, H2. clear E.
    split; [|split].
    + intros H3. now rewrite H3.
    + intros H3 H4. now rewrite H3, H4.
    + intros H3 [H4|H4]; now rewrite H3, H4.
Qed.

Lemma offer_failure_modes_witness :
  handleSDPOffer rejecting (render connected) JNull connected =
  (Thrown "rejected",
   set_calls [AddTrack "video0"; AddTrack "audio0"; SetRemoteDescription JNull]
     connected) /\
  handleSDPOffer accepting (render connecting) offer0 connecting =
  (Thrown "InvalidStateError",
   set_calls
     [AddTrack "video0"; AddTrack "audio0"; SetRemoteDescription offer0;
      CreateAnswer; SetLocalDescription answer0]
     connecting).
Proof.
  split.
  - apply (proj1 (offer_failure_modes rejecting (render connected) peer0
                    {| url := "ws://host/rooms/r1?name=alice" |} JNull
                    connected eq_refl eq_refl)).
    reflexivity.
  - apply (proj1 (proj2 (proj2 (proj2
             (offer_failure_modes accepting (render connecting) peer0
                {| url := "ws://host/rooms/r1?name=alice" |} offer0
                connecting eq_refl eq_refl))
             answer0 eq_refl eq_refl))); reflexivity.
Defined.

Lemma step_candidate_open roomID name api browser c w :
  peerConnection w <> None -> socket w <> None -> readyState w = OPEN ->
  step roomID name api browser w (IceCandidate c) =
  set_sent (sent w ++ ice_frames [c]) w.
Proof.
  intros Hp Hs Hr. unfold step, exec, handler, onicecandidate, send.
  destruct (peerConnection w); [|now elim Hp].
  destruct (socket w); [|now elim Hs].
  destruct c as [c|]; simpl.
  - now rewrite Hr.
  - now rewrite app_nil_r, set_sent_same.
Qed.

Lemma step_candidate_not_open roomID name api browser c w :
  readyState w <> OPEN ->
  step roomID name api browser w (IceCandidate c) = w.
Proof.
  intros Hr. unfold step, exec, handler, onicecandidate, send.
  destruct (peerConnection w); [|reflexivity].
  destruct (socket w); [|reflexivity].
  destruct c as [c|]; [|reflexivity].
  destruct (readyState w); try reflexivity. now elim Hr.
Qed.

(** X13.  The candidates the peer connection discovers are sent to the
    server one [ice] envelope each, in the order of discovery, while the
    socket is open; the [null] candidate that ends gathering sends
    nothing.  While the socket is not open (still connecting, closing or
    closed) every discovered candidate is lost: nothing is sent and
    nothing is kept for later. *)
Theorem local_candidates_sent_in_order :
  forall roomID name api browser cs w,
    peerConnection w <> None ->
    socket w <> None ->
    (readyState w = OPEN ->
     run roomID name api browser (map IceCandidate cs) w =
     set_sent (sent w ++ ice_frames cs) w) /\
    (readyState w <> OPEN ->
     run roomID name api browser (map IceCandidate cs) w = w).
Proof.
  intros roomID name api browser cs.
  induction cs as [|c cs IH]; intros w Hp Hs.
  - split; intros _; simpl; [now rewrite app_nil_r, set_sent_same | reflexivity].
  - split; intros Hr; cbn [map]; rewrite run_cons.
    + rewrite (step_candidate_open _ _ _ _ c w Hp Hs Hr).
      destruct (IH (set_sent (sent w ++ ice_frames [c]) w) Hp Hs) as [IHo _].
      rewrite (IHo Hr). cbn [sent set_sent].
      unfold ice_frames. cbn [flat_map]. rewrite app_nil_r.
      now rewrite <- app_assoc.
    + rewrite (step_candidate_not_open _ _ _ _ c w Hr).
      now apply IH.
Qed.

Lemma local_candidates_sent_in_order_witness :
  run "r1" (Some "alice") "ws://host" accepting
      (map IceCandidate [Some candidate0; Some candidate1; None]) connected =
  set_sent [envelope "ice" candidate0; envelope "ice" candidate1] connected /\
  run "r1" (Some "alice") "ws://host" accepting
      (map IceCandidate [Some candidate0; Some candidate1; None]) connecting =
  connecting.
Proof.
  split.
  - apply (proj1 (local_candidates_sent_in_order "r1" (Some "alice")
                    "ws://host" accepting
                    [Some candidate0; Some candidate1; None] connected
                    ltac:(discriminate) ltac:(discriminate))).
    reflexivity.
  - apply (proj2 (local_candidates_sent_in_order "r1" (Some "alice")
                    "ws://host" accepting
                    [Some candidate0; Some candidate1; None] connecting
                    ltac:(discriminate) ltac:(discriminate))).
    discriminate.
Defined.

(** X14.  When the [socket] effect acquires the local stream it shows the
    stream in the local video, builds a fresh peer connection on the
    Google STUN server and adds every track of the stream to it exactly
    once, in the order of the stream, before it stores the connection: the
    call log of the stored connection is those [addTrack] calls and no
    other, and a stream without tracks still yields a connection. *)
Theorem socket_effect_adds_every_track :
  forall r s stream w,
    r_socket r = Some s ->
    let w' := exec (socketEffect r (inl stream)) w in
    outcome (socketEffect r (inl stream)) w = Returned tt /\
    calls w' = map AddTrack stream /\
    length (calls w') = length stream /\
    peerConnection w' =
    Some {| iceServers := ["stun:stun.l.google.com:19302"] |} /\
    localVideo w' = Some stream /\
    chatMessages w' = chatMessages w /\
    sent w' = sent w /\
    alerts w' = alerts w.
Proof.
  intros r s stream w Hs w'. unfold w', exec, outcome.
  rewrite (socketEffect_acquired r s stream w Hs). simpl.
  repeat split. apply length_map.
Qed.

Lemma socket_effect_adds_every_track_witness :
  calls (exec (socketEffect (render connected) (inl ["a"; "b"; "c"]))
              connected) =
  [AddTrack "a"; AddTrack "b"; AddTrack "c"].
Proof.
  apply (socket_effect_adds_every_track (render connected)
           {| url := "ws://host/rooms/r1?name=alice" |} ["a"; "b"; "c"]
           connected eq_refl).
Defined.

Lemma step_track roomID name api browser streams w :
  peerConnection w <> None ->
  step roomID name api browser w (RemoteTrack streams) =
  set_remoteVideo (hd_error streams) w.
Proof.
  intros Hp. unfold step, exec, handler.
  destruct (peerConnection w); [reflexivity | now elim Hp].
Qed.

(** X15.  The remote video shows the first stream of the latest track
    event: after any run of track events on a page with a peer connection
    the world is the one before with the remote video set from the last
    event alone, and a last event without streams leaves the video without
    a source. *)
Theorem remote_video_shows_latest :
  forall roomID name api browser ss streams w,
    peerConnection w <> None ->
    run roomID name api browser (map RemoteTrack (ss ++ [streams])) w =
    set_remoteVideo (hd_error streams) w.
Proof.
  intros roomID name api browser ss streams.
  induction ss as [|s0 ss IH]; intros w Hp.
  - simpl. now rewrite (step_track _ _ _ _ streams w Hp).
  - cbn [app map]. rewrite run_cons, (step_track _ _ _ _ s0 w Hp).
    rewrite IH; [reflexivity | exact Hp].
Qed.

Lemma remote_video_shows_latest_witness :
  run "r1" (Some "alice") "ws://host" accepting
      (map RemoteTrack ([[["v1"]; ["v2"]]; []] ++ [[["a9"; "v9"]]]))
      connected =
  set_remoteVideo (Some ["a9"; "v9"]) connected.
Proof.
  apply (remote_video_shows_latest "r1" (Some "alice") "ws://host" accepting
           [[["v1"]; ["v2"]]; []] [["a9"; "v9"]] connected).
  discriminate.
Defined.

(** X16.  A send that goes through clears the input, and the handler has
    no guard against an empty text: pressing Send twice in a row on an open
    socket sends the typed text and then an empty text, and puts both
    messages in the log, the empty one in front. *)
Theorem second_send_is_empty :
  forall roomID username api browser w,
    socket w <> None ->
    truthy username = true ->
    readyState w = OPEN ->
    run roomID (Some username) api browser [Click; Click] w =
    set_chatContent ""
      (set_chatMessages
         (ChatMessage.mk username "" ::
          ChatMessage.mk username (chatContent w) :: chatMessages w)
         (set_sent
            (sent w ++ [envelope "chat" (JString (chatContent w));
                        envelope "chat" (JString "")])
            w)).
Proof.
  intros roomID username api browser w Hs Hu Hr.
  destruct (socket w) as [s|] eqn:Es; [clear Hs | now elim Hs].
  cbn [run fold_left]. unfold step at 2. unfold exec, handler.
  rewrite (sendChat_eq username (render w) s w Es Hu). cbv zeta.
  rewrite Hr. cbn [snd].
  unfold step, exec, handler.
  rewrite (sendChat_eq username _ s); [| exact Es | exact Hu].
  cbv zeta. cbn [readyState set_chatContent set_chatMessages set_sent].
  rewrite Hr. simpl. now rewrite <- app_assoc.
Qed.

Lemma second_send_is_empty_witness :
  chatMessages
    (run "r1" (Some "alice") "ws://host" accepting [Click; Click]
         (set_chatContent "hi" connected)) =
  [ChatMessage.mk "alice" ""; ChatMessage.mk "alice" "hi"].
Proof.
  rewrite (second_send_is_empty "r1" "alice" "ws://host" accepting
             (set_chatContent "hi" connected)
             ltac:(discriminate) eq_refl eq_refl).
  reflexivity.
Defined.

(** X17.  The peer connection carries exactly the tracks of the stream
    shown in the local video.  On every history, either there is no peer
    connection, no call has been made and the local video has no source, or
    the connection is the one built on the STUN server and its call log is
    one [addTrack] per track of the local video's stream, in order. *)
Theorem connection_carries_local_stream :
  forall roomID name api browser evs,
    let w := run roomID name api browser evs initial in
    (peerConnection w = None /\ calls w = [] /\ localVideo w = None) \/
    (peerConnection w = Some peer0 /\
     exists stream,
       localVideo w = Some stream /\ calls w = map AddTrack stream).
Proof.
  intros roomID name api browser evs. cbv zeta.
  apply (run_invariant roomID name api browser
           (fun w =>
              (peerConnection w = None /\ calls w = [] /\
               localVideo w = None) \/
              (peerConnection w = Some peer0 /\
               exists stream,
                 localVideo w = Some stream /\
                 calls w = map AddTrack stream))).
  - intros w ev w' HP Hc. destruct Hc; simpl; auto.
    right. split; [reflexivity|]. now exists stream.
  - left. now repeat split.
Qed.
